(** * Typewriter status driver and linear scene player

    A shallow embedding of the two scripted behaviours of the greeting
    pages: the auto-typing status log ([typeStatus], present in the
    Rubaisha page and, in a compacted form, in the Hisham page) and the
    scene slideshow ([showScene] with its two click handlers).

    JavaScript numbers are modelled as [Z] (every value the scripts compute
    is an integer far below 2^53, where doubles are exact), strings as
    [string], arrays as [list].  A call that ends in an uncaught
    [TypeError] yields [None]; what it had assigned before throwing is not
    kept. *)

From Stdlib Require Import ZArith QArith Qround String Ascii List Bool Lia.
Import ListNotations.

#[local] Open Scope string_scope.
#[local] Open Scope Z_scope.

(** ** JavaScript primitives used by the scripts *)

(** [s.length] *)
Definition js_length (s : string) : Z := Z.of_nat (String.length s).

(** [arr[i]]: [undefined] (here [None]) outside [0 .. arr.length - 1]. *)
Definition js_index {A : Type} (arr : list A) (i : Z) : option A :=
  if i <? 0 then None else nth_error arr (Z.to_nat i).

(** Argument clamping of [String.prototype.substring]: a negative bound
    counts as [0], a bound beyond the end as the length. *)
Definition js_clamp (len x : Z) : Z := Z.max 0 (Z.min x len).

(** [s.substring(a, b)]: both bounds clamped, then swapped when out of
    order. *)
Definition js_substring (s : string) (a b : Z) : string :=
  let len := js_length s in
  let a' := js_clamp len a in
  let b' := js_clamp len b in
  let from := Z.min a' b' in
  let to := Z.max a' b' in
  String.substring (Z.to_nat from) (Z.to_nat (to - from)) s.

(** [a % b] on numbers: the remainder takes the sign of the dividend. *)
Definition js_rem (a b : Z) : Z := Z.rem a b.

(** ** The typewriter: state shared by both pages *)

Record tw_state : Type := mkTw {
  messageIndex : Z;
  charIndex : Z;
  isDeleting : bool;
  textContent : string   (* statusLogElement.textContent *)
}.

Definition set_textContent (s : tw_state) (t : string) : tw_state :=
  mkTw (messageIndex s) (charIndex s) (isDeleting s) t.
Definition set_charIndex (s : tw_state) (c : Z) : tw_state :=
  mkTw (messageIndex s) c (isDeleting s) (textContent s).
Definition set_isDeleting (s : tw_state) (d : bool) : tw_state :=
  mkTw (messageIndex s) (charIndex s) d (textContent s).
Definition set_messageIndex (s : tw_state) (m : Z) : tw_state :=
  mkTw m (charIndex s) (isDeleting s) (textContent s).

(** The three cursors, without the display. *)
Definition control (s : tw_state) : Z * Z * bool :=
  (messageIndex s, charIndex s, isDeleting s).

(** [let messageIndex = 0; let charIndex = 0; let isDeleting = false;]
    The status element shows whatever the page markup put there. *)
Definition tw_init (markup : string) : tw_state := mkTw 0 0 false markup.

(** One call of a tick function yields the new state and the delay, in
    milliseconds, of the [setTimeout] it issues for the next call. *)
Definition tick_fn : Type := tw_state -> option (tw_state * Z).

Module Rubaisha.

(** [function typeStatus()] of the Rubaisha page. *)
Definition typeStatus (logMessages : list string) : tick_fn := fun s =>
  match js_index logMessages (messageIndex s) with
  | None => None (* currentMessage is undefined: .substring throws *)
  | Some currentMessage =>
    if isDeleting s then
      let s := set_textContent s (js_substring currentMessage 0 (charIndex s - 1)) in
      let s := set_charIndex s (charIndex s - 1) in
      let s :=
        if charIndex s =? 0 then
          let s := set_isDeleting s false in
          set_messageIndex s
            (js_rem (messageIndex s + 1) (Z.of_nat (List.length logMessages)))
        else s in
      Some (s, if isDeleting s then 50 else 100)
    else
      let s := set_textContent s (js_substring currentMessage 0 (charIndex s + 1)) in
      let s := set_charIndex s (charIndex s + 1) in
      if charIndex s =? js_length currentMessage then
        let s := set_isDeleting s true in
        Some (s, 2000) (* Pause before deleting *)
      else
        Some (s, if isDeleting s then 50 else 100)
  end.

(** [const logMessages] of the Rubaisha page. *)
Definition logMessages : list string :=
  [ "// loading memory: ruby_bday.dat";
    "// connection unstable...";
    "// running nostalgia protocol...";
    "// happy_birthday.exe executed." ].

End Rubaisha.

Module Hisham.

(** [function typeStatus()] of the Hisham page: [substring(0,
    charIndex++)] and [substring(0, charIndex--)] take the prefix at the
    value [charIndex] has before the update. *)
Definition typeStatus (logMessages : list string) : tick_fn := fun s =>
  match js_index logMessages (messageIndex s) with
  | None => None
  | Some currentMessage =>
    if isDeleting s then
      let s := set_charIndex
                 (set_textContent s (js_substring currentMessage 0 (charIndex s)))
                 (charIndex s - 1) in
      let s :=
        if charIndex s =? 0 then
          let s := set_isDeleting s false in
          set_messageIndex s
            (js_rem (messageIndex s + 1) (Z.of_nat (List.length logMessages)))
        else s in
      Some (s, if isDeleting s then 50 else 100)
    else
      let s := set_charIndex
                 (set_textContent s (js_substring currentMessage 0 (charIndex s)))
                 (charIndex s + 1) in
      if charIndex s =? js_length currentMessage then
        let s := set_isDeleting s true in
        Some (s, 2000)
      else
        Some (s, if isDeleting s then 50 else 100)
  end.

(** [const logMessages] of the Hisham page. *)
Definition logMessages : list string :=
  [ "// connection unstable...";
    "// nostalgia protocol running...";
    "// happy_birthday.exe executed." ].

End Hisham.

(** ** Runs of the timer chain

    Every call issues exactly one [setTimeout] for the next call, so a run
    is the sequence of its ticks. *)

(** State after [n] ticks. *)
Fixpoint ticks (tick : tick_fn) (n : nat) (s : tw_state) : option tw_state :=
  match n with
  | O => Some s
  | S k =>
    match tick s with
    | None => None
    | Some (s', _) => ticks tick k s'
    end
  end.

(** The first [n] ticks: the state each one leaves and the delay it
    schedules. *)
Fixpoint run (tick : tick_fn) (n : nat) (s : tw_state)
  : option (list (tw_state * Z)) :=
  match n with
  | O => Some []
  | S k =>
    match tick s with
    | None => None
    | Some (s', d) =>
      match run tick k s' with
      | None => None
      | Some tr => Some ((s', d) :: tr)
      end
    end
  end.

(** A tick completes a type-then-delete cycle when it leaves the deleting
    mode (the branch that also advances [messageIndex]). *)
Definition completes_cycle (s s' : tw_state) : bool :=
  isDeleting s && negb (isDeleting s').

(** State after [n] ticks together with the number of cycles completed
    by them. *)
Fixpoint ticks_cycles (tick : tick_fn) (n : nat) (s : tw_state)
  : option (tw_state * nat) :=
  match n with
  | O => Some (s, O)
  | S k =>
    match tick s with
    | None => None
    | Some (s', _) =>
      match ticks_cycles tick k s' with
      | None => None
      | Some (s'', c) =>
        Some (s'', if completes_cycle s s' then S c else c)
      end
    end
  end.

(** ** Predicates on runs of the typewriter *)

(** Every message of the queue has at least one character. *)
Definition all_nonempty (q : list string) : Prop :=
  Forall (fun m => 0 < js_length m) q.

(** What holds of the cursors between two ticks of a run that started in
    the initial state. *)
Definition cursors_ok (q : list string) (s : tw_state) : Prop :=
  exists cur,
    js_index q (messageIndex s) = Some cur /\
    if isDeleting s
    then 1 <= charIndex s <= js_length cur
    else 0 <= charIndex s < js_length cur.

(** The display shows the first [charIndex] characters of the selected
    message. *)
Definition shows_prefix (q : list string) (s : tw_state) : Prop :=
  exists cur,
    js_index q (messageIndex s) = Some cur /\
    textContent s = js_substring cur 0 (charIndex s).

(** ** Browser services used by the click handlers *)

(** Settlement of the promise returned by [HTMLMediaElement.play()]. *)
Inductive play_result : Type :=
| PlayStarted
| PlayRejected (error : string).

(** What the page cannot decide: which element ids the markup defines
    ([document.getElementById(id) !== null]) and how the [n]-th call of
    [play()] settles. *)
Record browser : Type := mkBrowser {
  hasElement : string -> bool;
  playOutcome : nat -> play_result
}.

(** What a page leaves behind: the elements [play()] was called on and the
    lines written to the console, both in order. *)
Record page_log : Type := mkLog {
  played : list string;
  console : list string
}.

(** [element.play()]: records the attempt and returns the promise. *)
Definition media_play (env : browser) (id : string) (l : page_log)
  : page_log * play_result :=
  (mkLog (played l ++ [id]) (console l),
   playOutcome env (List.length (played l))).

(** [console.log(msg)] *)
Definition console_log (msg : string) (l : page_log) : page_log :=
  mkLog (played l) (console l ++ [msg]).

(** [promise.catch(handler)]: the handler runs only on rejection. *)
Definition promise_catch (promise : play_result)
  (handler : string -> page_log -> page_log) (l : page_log) : page_log :=
  match promise with
  | PlayStarted => l
  | PlayRejected error => handler error l
  end.

(** ** The scene player *)

Record scene : Type := mkScene {
  image : string;
  dialogue : string;
  audio : string;
  next : option Z   (* [null] is [None] *)
}.

Record player : Type := mkPlayer {
  currentScene : Z;
  sceneImage_src : string;
  dialogueBox_textContent : string;
  nextBtn_display : string;          (* nextBtn.style.display *)
  nextBtn_onclick : option scene;    (* the [scene] the armed closure captured *)
  opening_display : string;          (* opening-screen *)
  game_display : string;             (* game-container *)
  io : page_log
}.

Definition set_src (s : player) (v : string) : player :=
  mkPlayer (currentScene s) v (dialogueBox_textContent s) (nextBtn_display s)
    (nextBtn_onclick s) (opening_display s) (game_display s) (io s).
Definition set_dialogue (s : player) (v : string) : player :=
  mkPlayer (currentScene s) (sceneImage_src s) v (nextBtn_display s)
    (nextBtn_onclick s) (opening_display s) (game_display s) (io s).
Definition set_display (s : player) (v : string) : player :=
  mkPlayer (currentScene s) (sceneImage_src s) (dialogueBox_textContent s) v
    (nextBtn_onclick s) (opening_display s) (game_display s) (io s).
Definition set_onclick (s : player) (v : option scene) : player :=
  mkPlayer (currentScene s) (sceneImage_src s) (dialogueBox_textContent s)
    (nextBtn_display s) v (opening_display s) (game_display s) (io s).
Definition set_currentScene (s : player) (v : Z) : player :=
  mkPlayer v (sceneImage_src s) (dialogueBox_textContent s)
    (nextBtn_display s) (nextBtn_onclick s) (opening_display s)
    (game_display s) (io s).
Definition set_opening (s : player) (v : string) : player :=
  mkPlayer (currentScene s) (sceneImage_src s) (dialogueBox_textContent s)
    (nextBtn_display s) (nextBtn_onclick s) v (game_display s) (io s).
Definition set_game (s : player) (v : string) : player :=
  mkPlayer (currentScene s) (sceneImage_src s) (dialogueBox_textContent s)
    (nextBtn_display s) (nextBtn_onclick s) (opening_display s) v (io s).
Definition set_io (s : player) (v : page_log) : player :=
  mkPlayer (currentScene s) (sceneImage_src s) (dialogueBox_textContent s)
    (nextBtn_display s) (nextBtn_onclick s) (opening_display s)
    (game_display s) v.

(** The line feed of the ["\n"] escapes. *)
Definition LF : ascii := "010"%char.

(** The closing line appended at the last scene (the apostrophe is the
    typographic one of the script, here in its UTF-8 bytes). *)
Definition epilogue : string :=
  String LF (String LF "Ruby’s ghost appears behind you...").

(** [const scenes] *)
Definition scenes : list scene :=
  [ mkScene "images/bedroom.jpg"
      "The room reeks of despair. A razor sits on the dresser."
      "whisper" (Some 1);
    mkScene "images/bathroom.jpg"
      "The bathtub is tinged with red. The mirror cracks silently."
      "door" (Some 2);
    mkScene "images/window.jpg"
      "You see the note. Blood trails on the glass."
      "scream" None ].

Section ScenePlayer.

Variable env : browser.
Variable chain : list scene.   (* the array [scenes] in use *)

(** [function showScene(index)] *)
Definition showScene (index : Z) (s : player) : option player :=
  match js_index chain index with
  | None => None (* scene is undefined: scene.image throws *)
  | Some scene =>
    let s := set_src s (image scene) in
    let s := set_dialogue s (dialogue scene) in
    if hasElement env (audio scene) then
      (* sound.play(); the promise it returns is dropped *)
      let (l, _) := media_play env (audio scene) (io s) in
      let s := set_io s l in
      match next scene with
      | Some _ =>
        let s := set_display s "block" in
        Some (set_onclick s (Some scene))
      | None =>
        let s := set_display s "none" in
        Some (set_dialogue s (dialogueBox_textContent s ++ epilogue))
      end
    else None (* sound is null: sound.play() throws *)
  end.

(** The closure stored in [nextBtn.onclick], run by one activation of the
    control; nothing happens while no closure is stored.  The last scene
    hides the control but leaves the closure of the scene before it in
    place. *)
Definition nextBtn_click (s : player) : option player :=
  match nextBtn_onclick s with
  | None => Some s
  | Some scene =>
    match next scene with
    | None => None (* showScene(null) throws *)
    | Some n =>
      let s := set_currentScene s n in
      showScene (currentScene s) s
    end
  end.

(** The click listener of [start-btn]. *)
Definition start_click (s : player) : option player :=
  let s := set_opening s "none" in
  let s := set_game s "block" in
  showScene (currentScene s) s.

(** [k] activations of the continue control. *)
Fixpoint continue_clicks (k : nat) (s : player) : option player :=
  match k with
  | O => Some s
  | S k' =>
    match nextBtn_click s with
    | None => None
    | Some s' => continue_clicks k' s'
    end
  end.

(** The start signal followed by [k] activations of the continue
    control. *)
Definition start_then_continue (k : nat) (s : player) : option player :=
  match start_click s with
  | None => None
  | Some s1 => continue_clicks k s1
  end.

(** Number of scenes met when following [next] from scene [i], if a scene
    without successor is met within [fuel] scenes. *)
Fixpoint walk (fuel : nat) (i : Z) : option nat :=
  match fuel with
  | O => None
  | S f =>
    match js_index chain i with
    | None => None
    | Some sc =>
      match next sc with
      | None => Some 1%nat
      | Some j => option_map S (walk f j)
      end
    end
  end.

(** Length of the chain that starts at the first scene; a path without
    repetition visits at most [length chain] scenes, so [None] means the
    chain is malformed (dangling index or cycle). *)
Definition chainLength : option nat := walk (List.length chain) 0.

(** Every scene names a sound element that the page defines. *)
Definition sounds_defined : Prop :=
  Forall (fun sc => hasElement env (audio sc) = true) chain.

End ScenePlayer.

(** State of the page when the script has been loaded: [let currentScene
    = 0], nothing armed, the [window.onload] handler has hidden the game
    container. *)
Definition player_init : player :=
  mkPlayer 0 "" "" "" None "" "none" (mkLog [] []).

(** ** The music player of the Hisham page *)

Record music : Type := mkMusic {
  song_paused : bool;
  playBtn_textContent : string;
  status : tw_state;          (* the status log running on the same page *)
  mio : page_log
}.

(** The click listener of [play-pause-btn].  A started playback clears
    [song.paused]; a rejected one leaves the element paused. *)
Definition playBtn_click (env : browser) (m : music) : music :=
  if song_paused m then
    let (l, promise) := media_play env "background-song" (mio m) in
    let paused := match promise with PlayStarted => false | PlayRejected _ => true end in
    let l := promise_catch promise
               (fun error => console_log ("Audio play failed: " ++ error)) l in
    mkMusic paused "Pause Song" (status m) l
  else
    mkMusic true "Play Song" (status m) (mio m).

(** State of the Hisham page when its main content starts: the song is
    paused and the button carries its markup text. *)
Definition music_init : music :=
  mkMusic true "Play Song" (tw_init "") (mkLog [] []).

(** ** Sample browsers and states *)

(** A page that defines every element asked for. *)
Definition all_present : string -> bool := fun _ => true.

(** Every playback starts. *)
Definition env_ok : browser := mkBrowser all_present (fun _ => PlayStarted).

(** Every playback is rejected (as by an autoplay policy). *)
Definition env_blocked : browser :=
  mkBrowser all_present (fun _ => PlayRejected "NotAllowedError").

(** The scene player after the start signal and two activations of the
    continue control. *)
Definition at_last_scene : player :=
  mkPlayer 2 "images/window.jpg"
    ("You see the note. Blood trails on the glass." ++ epilogue)
    "none"
    (Some (mkScene "images/bathroom.jpg"
       "The bathtub is tinged with red. The mirror cracks silently."
       "door" (Some 2)))
    "none" "block" (mkLog ["whisper"; "door"; "scream"] []).


(** ** Elapsed time of the typewriter *)

(** State after [n] ticks together with the sum of the delays they
    scheduled: the time from the first of them to the tick that follows
    the last. *)
Fixpoint ticks_elapsed (tick : tick_fn) (n : nat) (s : tw_state)
  : option (tw_state * Z) :=
  match n with
  | O => Some (s, 0)
  | S k =>
    match tick s with
    | None => None
    | Some (s', d) =>
      match ticks_elapsed tick k s' with
      | None => None
      | Some (s'', t) => Some (s'', d + t)
      end
    end
  end.

(** ** The blinking tab title of the Rubaisha page *)

(** [const titles] *)
Definition titles : list string :=
  [ "For Ruby"; "A Message..."; "Happy 17th"; "<3" ].

Record title_state : Type := mkTitle {
  document_title : string;
  titleIndex : Z
}.

(** [a % b] where the divisor may be [0]: the result is then [NaN], here
    [None]. *)
Definition js_rem_nan (a b : Z) : option Z :=
  if b =? 0 then None else Some (Z.rem a b).

(** Conversion of a value assigned to a string attribute of the page:
    [undefined] becomes the text "undefined". *)
Definition to_DOMString (v : option string) : string :=
  match v with
  | Some s => s
  | None => "undefined"
  end.

(** The callback of [setInterval(..., 2500)]. *)
Definition title_tick (titles : list string) (s : title_state) : title_state :=
  let v :=
    match js_rem_nan (titleIndex s) (Z.of_nat (List.length titles)) with
    | None => None (* titles[NaN] *)
    | Some i => js_index titles i
    end in
  mkTitle (to_DOMString v) (titleIndex s + 1).

Fixpoint title_ticks (titles : list string) (n : nat) (s : title_state)
  : title_state :=
  match n with
  | O => s
  | S k => title_ticks titles k (title_tick titles s)
  end.

(** ** The pre-loader of the Hisham page *)







(** ** The ghost text of the Experiment page *)

(** The cursor [i] and the [style.opacity] of each paragraph of
    [ghostLines]. *)
Record ghost : Type := mkGhost {
  ghost_i : Z;
  ghost_opacity : list string
}.

(** [l[i] = v] for an index inside the list. *)
Fixpoint list_set {A : Type} (l : list A) (i : nat) (v : A) : list A :=
  match l, i with
  | [], _ => []
  | _ :: t, O => v :: t
  | h :: t, S j => h :: list_set t j v
  end.

(** [function revealText()]: the new state and the delay of the timer it
    sets, if any. *)
Definition revealText (s : ghost) : option (ghost * option Z) :=
  if ghost_i s <? Z.of_nat (List.length (ghost_opacity s)) then
    match js_index (ghost_opacity s) (ghost_i s) with
    | None => None (* ghostLines[i] is undefined: .style throws *)
    | Some _ =>
      let s := mkGhost (ghost_i s)
                 (list_set (ghost_opacity s) (Z.to_nat (ghost_i s)) "1") in
      let s := mkGhost (ghost_i s + 1) (ghost_opacity s) in
      Some (s, Some 2000)
    end
  else Some (s, None).

(** At most [k] calls along the chain of timers, the first one made when
    the page has loaded: the state reached and whether a call is still
    pending. *)
Fixpoint reveal_calls (k : nat) (s : ghost) : option (ghost * bool) :=
  match k with
  | O => Some (s, true)
  | S k' =>
    match revealText s with
    | None => None
    | Some (s', None) => Some (s', false)
    | Some (s', Some _) => reveal_calls k' s'
    end
  end.

(** ** The falling characters *)

(** [let fontSize = 16] *)
Definition fontSize : Z := 16.

(** [let columns = canvas.width / fontSize]; the quotient of an integer by
    16 is exact in a double, so a rational stands for it. *)
Definition columns (width : Z) : Q := (inject_Z width / inject_Z fontSize)%Q.

(** [a < b] on numbers *)
Definition js_lt (a b : Q) : bool := negb (Qle_bool b a).

(** What one column draws from [Math.random()] in one frame. *)
Record matrix_roll : Type := mkRoll {
  glyph : Z;       (* Math.floor(Math.random() * characters.length) *)
  colour : Z;      (* Math.floor(Math.random() * neonColors.length) *)
  restart : bool   (* Math.random() > 0.975, asked only below the canvas *)
}.

Inductive canvas_op : Type :=
| FillRect (fillStyle : string) (x y w h : Z)
| FillText (fillStyle font : string) (text : string) (x y : Z).

(** The end of the loop body, the same in both pages:
    [if (drops[i] * fontSize > canvas.height && Math.random() > 0.975)
     drops[i] = 0;  drops[i]++]. *)
Definition fall (height : Z) (r : matrix_roll) (d : Z) : Z :=
  let d := if (d * fontSize >? height) && restart r then 0 else d in
  d + 1.

(** A drop either moves down one row or, only when it is already below
    the canvas, starts again at row 1. *)
Definition drop_moves (height : Z) (d d' : Z) : Prop :=
  d' = d + 1 \/ (height < d * fontSize /\ d' = 1).

Module RubaishaRain.

(** ['â™¥*+<317'.split('')]: the heart of the script arrives as three
    characters, so the array has nine entries. *)
Definition characters : list string :=
  [ "â"; "™"; "¥"; "*"; "+"; "<"; "3"; "1"; "7" ].

(** [for (let x = 0; x < columns; x++) drops[x] = 1], the array being
    empty before; [fuel] bounds the iterations. *)
Fixpoint init_drops (fuel : nat) (columns : Q) (x : Z) (drops : list Z)
  : list Z :=
  match fuel with
  | O => drops
  | S f =>
    if js_lt (inject_Z x) columns
    then init_drops f columns (x + 1) (drops ++ [1])
    else drops
  end.

(** The loop of [drawMatrix] from column [i] on. *)
Fixpoint rain_loop (chars : list string) (height : Z)
    (roll : nat -> matrix_roll) (i : nat) (drops : list Z)
  : list Z * list canvas_op :=
  match drops with
  | [] => ([], [])
  | d :: rest =>
    let text := to_DOMString (js_index chars (glyph (roll i))) in
    let op := FillText "#ff3aff" "16px VT323" text
                (Z.of_nat i * fontSize) (d * fontSize) in
    let d := fall height (roll i) d in
    let (rest', ops) := rain_loop chars height roll (S i) rest in
    (d :: rest', op :: ops)
  end.

(** [function drawMatrix()] *)
Definition drawMatrix (chars : list string) (width height : Z)
    (roll : nat -> matrix_roll) (drops : list Z)
  : list Z * list canvas_op :=
  let (drops', ops) := rain_loop chars height roll 0 drops in
  (drops', FillRect "rgba(5, 2, 31, 0.05)" 0 0 width height :: ops).

End RubaishaRain.

Module HishamRain.

(** ['HISHAM*+<322'.split('')] *)
Definition characters : list string :=
  [ "H"; "I"; "S"; "H"; "A"; "M"; "*"; "+"; "<"; "3"; "2"; "2" ].

(** [const neonColors] *)
Definition neonColors : list string := [ "#FF1818"; "#FFFFFF"; "#B20000" ].

(** [Array.from({ length: columns }).fill(1)]: the length is the integer
    part of [columns], or [0] when that is negative. *)
Definition init_drops (columns : Q) : list Z :=
  List.repeat 1 (Z.to_nat (Qfloor columns)).

(** The loop of [drawMatrix] from column [i] on; an assignment of
    [undefined] to [ctx.fillStyle] is ignored and leaves [style]. *)
Fixpoint rain_loop (chars colours : list string) (height : Z)
    (roll : nat -> matrix_roll) (i : nat) (style : string) (drops : list Z)
  : list Z * list canvas_op :=
  match drops with
  | [] => ([], [])
  | d :: rest =>
    let text := to_DOMString (js_index chars (glyph (roll i))) in
    let style :=
      match js_index colours (colour (roll i)) with
      | Some c => c
      | None => style
      end in
    let op := FillText style "16px VT323" text
                (Z.of_nat i * fontSize) (d * fontSize) in
    let d := fall height (roll i) d in
    let (rest', ops) :=
      rain_loop chars colours height roll (S i) style rest in
    (d :: rest', op :: ops)
  end.

(** [function drawMatrix()] *)
Definition drawMatrix (chars colours : list string) (width height : Z)
    (roll : nat -> matrix_roll) (drops : list Z)
  : list Z * list canvas_op :=
  let style := "rgba(0, 0, 0, 0.05)" in
  let (drops', ops) := rain_loop chars colours height roll 0 style drops in
  (drops', FillRect style 0 0 width height :: ops).

End HishamRain.

(** [n] frames of a [drawMatrix]; [rolls f] is what frame [f] draws from
    [Math.random()]. *)
Fixpoint frames (draw : (nat -> matrix_roll) -> list Z -> list Z * list canvas_op)
    (rolls : nat -> nat -> matrix_roll) (n : nat) (drops : list Z) : list Z :=
  match n with
  | O => drops
  | S k => frames draw (fun f => rolls (S f)) k (fst (draw (rolls O) drops))
  end.

(** ** More of the scene player *)

(** The scenes met when following [next] from scene [i], in order, if a
    scene without successor is met within [fuel] scenes. *)
Fixpoint chain_path (chain : list scene) (fuel : nat) (i : Z)
  : option (list scene) :=
  match fuel with
  | O => None
  | S f =>
    match js_index chain i with
    | None => None
    | Some sc =>
      match next sc with
      | None => Some [sc]
      | Some j => option_map (cons sc) (chain_path chain f j)
      end
    end
  end.

(** Every scene has a successor, and that successor is a scene of the
    array: following [next] never ends. *)
Definition endless (chain : list scene) : Prop :=
  Forall (fun sc => exists j sc', next sc = Some j /\ js_index chain j = Some sc')
    chain.

(** The closure stored in the continue control, if any, leads to the
    scene on display. *)
Definition onclick_ok (s : player) : Prop :=
  match nextBtn_onclick s with
  | None => True
  | Some prev => next prev = Some (currentScene s)
  end.

(** A chain of two scenes that lead to each other. *)
Definition looping_scenes : list scene :=
  [ mkScene "a.jpg" "A" "whisper" (Some 1);
    mkScene "b.jpg" "B" "door" (Some 0) ].

(** ** More of the music player of the Hisham page *)

(** The listener added to [document.body] with [{ once: true }]. *)
Definition autoplay_click (env : browser) (m : music) : music :=
  if song_paused m && (playBtn_textContent m =? "Play Song")%string then
    let (l, promise) := media_play env "background-song" (mio m) in
    let paused := match promise with PlayStarted => false | PlayRejected _ => true end in
    let l := promise_catch promise
               (fun error => console_log ("Audio play failed: " ++ error)) l in
    mkMusic paused "Pause Song" (status m) l
  else m.

(** A click on [play-pause-btn] as the first click on the page: the
    listener of the button runs, then the event reaches [document.body],
    where the listener of the memory fragments returns at once for this
    target and the [once] listener runs. *)
Definition first_click_on_playBtn (env : browser) (m : music) : music :=
  autoplay_click env (playBtn_click env m).

(** [n] clicks on [play-pause-btn] after the [once] listener is gone. *)
Fixpoint playBtn_clicks (env : browser) (n : nat) (m : music) : music :=
  match n with
  | O => m
  | S k => playBtn_clicks env k (playBtn_click env m)
  end.

(** * Properties *)

(** ** Strings and arrays *)

Lemma substring_0_length (s : string) (n : nat) :
  String.length (String.substring 0 n s) = Nat.min n (String.length s).
Proof.
  revert n; induction s as [|c s IH]; intros [|n]; simpl; auto.
Qed.

Lemma substring_0_all (s : string) :
  String.substring 0 (String.length s) s = s.
Proof.
  induction s as [|c s IH]; simpl; [reflexivity | now rewrite IH].
Qed.

Lemma substring_0_0 (s : string) : String.substring 0 0 s = "".
Proof. destruct s; reflexivity. Qed.

Lemma js_length_nonneg (s : string) : 0 <= js_length s.
Proof. unfold js_length; lia. Qed.

Lemma js_substring_prefix (s : string) (e : Z) :
  0 <= e <= js_length s ->
  js_substring s 0 e = String.substring 0 (Z.to_nat e) s.
Proof.
  intros He. unfold js_substring, js_clamp.
  replace (Z.min (Z.max 0 (Z.min 0 (js_length s))) (Z.max 0 (Z.min e (js_length s))))
    with 0 by lia.
  replace (Z.max (Z.max 0 (Z.min 0 (js_length s))) (Z.max 0 (Z.min e (js_length s))) - 0)
    with e by lia.
  reflexivity.
Qed.

Lemma js_substring_0_0 (s : string) : js_substring s 0 0 = "".
Proof.
  rewrite js_substring_prefix by (pose proof (js_length_nonneg s); lia).
  apply substring_0_0.
Qed.

Lemma js_substring_full (s : string) : js_substring s 0 (js_length s) = s.
Proof.
  rewrite js_substring_prefix by (pose proof (js_length_nonneg s); lia).
  unfold js_length. rewrite Nat2Z.id. apply substring_0_all.
Qed.

Lemma js_length_substring (s : string) (e : Z) :
  0 <= e <= js_length s -> js_length (js_substring s 0 e) = e.
Proof.
  intros He. rewrite js_substring_prefix by exact He.
  unfold js_length in *. rewrite substring_0_length. lia.
Qed.

Lemma js_index_range {A : Type} (arr : list A) (i : Z) (x : A) :
  js_index arr i = Some x -> 0 <= i < Z.of_nat (List.length arr).
Proof.
  unfold js_index. destruct (Z.ltb_spec i 0) as [Hi|Hi]; [discriminate|].
  intros H. assert (Hn : (Z.to_nat i < List.length arr)%nat).
  { apply nth_error_Some. congruence. }
  lia.
Qed.

Lemma js_index_defined {A : Type} (arr : list A) (i : Z) :
  0 <= i < Z.of_nat (List.length arr) ->
  exists x, js_index arr i = Some x /\ In x arr.
Proof.
  intros Hi. unfold js_index.
  destruct (Z.ltb_spec i 0) as [Hneg|_]; [lia|].
  destruct (nth_error arr (Z.to_nat i)) as [x|] eqn:E.
  - exists x. split; [reflexivity | eapply nth_error_In; eassumption].
  - apply nth_error_None in E. lia.
Qed.

Lemma js_rem_range (i n : Z) :
  0 <= i < n -> 0 <= js_rem (i + 1) n < n.
Proof.
  intros Hi. unfold js_rem. rewrite Z.rem_mod_nonneg by lia.
  apply Z.mod_pos_bound. lia.
Qed.

(** ** The typewriter *)

Lemma next_message (q : list string) (i : Z) (cur : string) :
  all_nonempty q -> js_index q i = Some cur ->
  exists cur',
    js_index q (js_rem (i + 1) (Z.of_nat (List.length q))) = Some cur' /\
    0 < js_length cur'.
Proof.
  intros Hq Hi. apply js_index_range in Hi.
  destruct (js_index_defined q _ (js_rem_range _ _ Hi)) as [cur' [E Hin]].
  exists cur'. split; [exact E|].
  unfold all_nonempty in Hq. rewrite Forall_forall in Hq. now apply Hq.
Qed.

Lemma init_cursors_ok (q : list string) (markup : string) :
  q <> [] -> all_nonempty q -> cursors_ok q (tw_init markup).
Proof.
  intros Hne Hq. destruct q as [|m q]; [congruence|].
  exists m. split; [reflexivity|]. simpl.
  inversion Hq; subst. lia.
Qed.

(** The two tick functions move the cursors alike and schedule alike. *)
Lemma tick_control_agree (q : list string) (s1 s2 : tw_state) :
  control s1 = control s2 ->
  match Rubaisha.typeStatus q s1, Hisham.typeStatus q s2 with
  | Some (a, d), Some (b, d') => control a = control b /\ d = d'
  | None, None => True
  | _, _ => False
  end.
Proof.
  destruct s1 as [m1 c1 d1 t1], s2 as [m2 c2 d2 t2]. unfold control; simpl.
  intros E; injection E as -> -> ->.
  unfold Rubaisha.typeStatus, Hisham.typeStatus; simpl.
  destruct (js_index q m2) as [cur|]; [|exact I].
  destruct d2; simpl.
  - destruct (c2 - 1 =? 0); simpl; split; reflexivity.
  - destruct (c2 + 1 =? js_length cur); simpl; split; reflexivity.
Qed.

Lemma ticks_control_agree (q : list string) (n : nat) :
  forall s1 s2, control s1 = control s2 ->
  match ticks (Rubaisha.typeStatus q) n s1, ticks (Hisham.typeStatus q) n s2 with
  | Some a, Some b => control a = control b
  | None, None => True
  | _, _ => False
  end.
Proof.
  induction n as [|n IH]; intros s1 s2 E; simpl; [exact E|].
  pose proof (tick_control_agree q s1 s2 E) as H.
  destruct (Rubaisha.typeStatus q s1) as [[a d]|],
           (Hisham.typeStatus q s2) as [[b d']|]; try contradiction; auto.
  destruct H as [H _]. now apply IH.
Qed.

(** One tick of the Rubaisha page from a state of a run: it succeeds,
    keeps the cursors in range and leaves the matching prefix on
    display. *)
Lemma rubaisha_tick_ok (q : list string) (s : tw_state) :
  all_nonempty q -> cursors_ok q s ->
  exists s' d,
    Rubaisha.typeStatus q s = Some (s', d) /\
    cursors_ok q s' /\ shows_prefix q s'.
Proof.
  intros Hq [cur [Hcur Hc]].
  destruct s as [m c del t]; simpl in *.
  unfold Rubaisha.typeStatus; simpl. rewrite Hcur.
  destruct del; simpl.
  - destruct (Z.eqb_spec (c - 1) 0) as [E|E]; simpl.
    + destruct (next_message q m cur Hq Hcur) as [cur' [Hn Hpos]].
      do 2 eexists. split; [reflexivity|].
      split; exists cur'; simpl; (split; [exact Hn|]).
      * lia.
      * rewrite E. now rewrite !js_substring_0_0.
    + do 2 eexists. split; [reflexivity|].
      split; exists cur; simpl; (split; [exact Hcur|]); [lia | reflexivity].
  - destruct (Z.eqb_spec (c + 1) (js_length cur)) as [E|E]; simpl.
    + do 2 eexists. split; [reflexivity|].
      split; exists cur; simpl; (split; [exact Hcur|]); [lia | reflexivity].
    + do 2 eexists. split; [reflexivity|].
      split; exists cur; simpl; (split; [exact Hcur|]); [lia | reflexivity].
Qed.

Lemma rubaisha_ticks_ok (q : list string) (n : nat) :
  all_nonempty q ->
  forall s, cursors_ok q s ->
  exists s',
    ticks (Rubaisha.typeStatus q) (S n) s = Some s' /\
    cursors_ok q s' /\ shows_prefix q s'.
Proof.
  intros Hq. induction n as [|n IH]; intros s Hs.
  - destruct (rubaisha_tick_ok q s Hq Hs) as [s' [d [E [H1 H2]]]].
    exists s'. simpl. rewrite E. auto.
  - destruct (rubaisha_tick_ok q s Hq Hs) as [s' [d [E [H1 _]]]].
    destruct (IH s' H1) as [s'' [E' H']].
    exists s''. split; [|exact H'].
    change (ticks (Rubaisha.typeStatus q) (S (S n)) s)
      with (match Rubaisha.typeStatus q s with
            | None => None
            | Some (s1, _) => ticks (Rubaisha.typeStatus q) (S n) s1
            end).
    rewrite E. exact E'.
Qed.

Lemma typewriter_run_exists (q : list string) (markup : string) (n : nat) :
  q <> [] -> all_nonempty q ->
  exists sR,
    ticks (Rubaisha.typeStatus q) (S n) (tw_init markup) = Some sR /\
    cursors_ok q sR.
Proof.
  intros Hne Hq.
  destruct (rubaisha_ticks_ok q n Hq _ (init_cursors_ok q markup Hne Hq))
    as [sR [ER [Hok _]]].
  exists sR. auto.
Qed.

(** C1 (as amended).  For a queue whose messages all have at least one
    character, after every tick of a run started in the initial state
    both pages hold the same cursors, [0 <= charIndex <=
    len(currentMessage)], and the Rubaisha page displays the prefix of
    length [charIndex] of the currently selected message. *)
Theorem typewriter_invariant (q : list string) (markup : string) (n : nat) :
  q <> [] -> all_nonempty q ->
  exists sR sH cur,
    ticks (Rubaisha.typeStatus q) (S n) (tw_init markup) = Some sR /\
    ticks (Hisham.typeStatus q) (S n) (tw_init markup) = Some sH /\
    control sH = control sR /\
    js_index q (messageIndex sR) = Some cur /\
    0 <= charIndex sR <= js_length cur /\
    textContent sR = js_substring cur 0 (charIndex sR).
Proof.
  intros Hne Hq.
  destruct (rubaisha_ticks_ok q n Hq _ (init_cursors_ok q markup Hne Hq))
    as [sR [ER [[cur [Hcur Hc]] [cur' [Hcur' Ht]]]]].
  pose proof (ticks_control_agree q (S n) (tw_init markup) (tw_init markup)
                eq_refl) as HA.
  rewrite ER in HA.
  destruct (ticks (Hisham.typeStatus q) (S n) (tw_init markup)) as [sH|];
    [|contradiction].
  exists sR, sH, cur. repeat split; auto.
  - destruct (isDeleting sR); lia.
  - destruct (isDeleting sR); lia.
  - congruence.
Qed.

Lemma typewriter_invariant_witness :
  Rubaisha.logMessages <> [] /\ all_nonempty Rubaisha.logMessages /\
  exists sR sH cur,
    ticks (Rubaisha.typeStatus Rubaisha.logMessages) 40 (tw_init "") = Some sR /\
    ticks (Hisham.typeStatus Rubaisha.logMessages) 40 (tw_init "") = Some sH /\
    control sH = control sR /\
    js_index Rubaisha.logMessages (messageIndex sR) = Some cur /\
    0 <= charIndex sR <= js_length cur /\
    textContent sR = js_substring cur 0 (charIndex sR).
Proof.
  assert (H1 : Rubaisha.logMessages <> []) by discriminate.
  assert (H2 : all_nonempty Rubaisha.logMessages)
    by (repeat constructor).
  split; [exact H1|]. split; [exact H2|].
  exact (typewriter_invariant Rubaisha.logMessages "" 39 H1 H2).
Defined.

(** C1 as stated fails twice: a queue may be non-empty and still hold an
    empty message, on which [charIndex] passes the length at the first
    tick; and the Hisham page never displays the prefix of length
    [charIndex] (already not after its first tick). *)
Lemma typewriter_invariant_counterexample :
  (exists s,
     ticks (Rubaisha.typeStatus [""]) 1 (tw_init "") = Some s /\
     js_index [""] (messageIndex s) = Some "" /\
     ~ charIndex s <= js_length "") /\
  (exists s cur,
     ticks (Hisham.typeStatus Hisham.logMessages) 1 (tw_init "") = Some s /\
     js_index Hisham.logMessages (messageIndex s) = Some cur /\
     textContent s <> js_substring cur 0 (charIndex s)).
Proof.
  split.
  - eexists. split; [reflexivity|]. split; [reflexivity|].
    vm_compute. intros H; apply H; reflexivity.
  - do 2 eexists. split; [reflexivity|]. split; [reflexivity|].
    vm_compute. discriminate.
Qed.

(** *** Cycles *)

Lemma rubaisha_tick_index (q : list string) (s : tw_state) (cur : string) :
  js_index q (messageIndex s) = Some cur ->
  exists s' d,
    Rubaisha.typeStatus q s = Some (s', d) /\
    messageIndex s' =
      if completes_cycle s s'
      then js_rem (messageIndex s + 1) (Z.of_nat (List.length q))
      else messageIndex s.
Proof.
  intros Hcur. destruct s as [m c del t]; simpl in *.
  unfold Rubaisha.typeStatus, completes_cycle; simpl. rewrite Hcur.
  destruct del; simpl.
  - destruct (c - 1 =? 0); simpl; do 2 eexists; split; reflexivity.
  - destruct (c + 1 =? js_length cur); simpl; do 2 eexists; split; reflexivity.
Qed.

Lemma cycles_index (q : list string) (t : nat) :
  forall (s : tw_state) (c0 : nat),
    0 <= messageIndex s < Z.of_nat (List.length q) ->
    messageIndex s = Z.of_nat c0 mod Z.of_nat (List.length q) ->
    exists s' c,
      ticks_cycles (Rubaisha.typeStatus q) t s = Some (s', c) /\
      messageIndex s' = Z.of_nat (c0 + c) mod Z.of_nat (List.length q).
Proof.
  induction t as [|t IH]; intros s c0 Hr Hm.
  - exists s, O. split; [reflexivity|]. now rewrite Nat.add_0_r.
  - destruct (js_index_defined q _ Hr) as [cur [Hcur _]].
    destruct (rubaisha_tick_index q s cur Hcur) as [s1 [d [E Hi]]].
    simpl. rewrite E.
    destruct (completes_cycle s s1).
    + destruct (IH s1 (S c0)) as [s' [c [E' Hm']]].
      * rewrite Hi. now apply js_rem_range.
      * rewrite Hi, Hm. unfold js_rem.
        rewrite Z.rem_mod_nonneg by lia.
        rewrite Z.add_mod_idemp_l by lia. f_equal. lia.
      * rewrite E'. exists s', (S c). split; [reflexivity|].
        rewrite Hm'. f_equal. lia.
    + destruct (IH s1 c0) as [s' [c [E' Hm']]].
      * now rewrite Hi.
      * now rewrite Hi.
      * rewrite E'. exists s', c. split; [reflexivity | exact Hm'].
Qed.

Lemma ticks_cycles_app (tick : tick_fn) (a b : nat) :
  forall s s1 s2 c1 c2,
    ticks_cycles tick a s = Some (s1, c1) ->
    ticks_cycles tick b s1 = Some (s2, c2) ->
    ticks_cycles tick (a + b) s = Some (s2, (c1 + c2)%nat).
Proof.
  induction a as [|a IH]; intros s s1 s2 c1 c2 Ha Hb; simpl in *.
  - injection Ha as <- <-. exact Hb.
  - destruct (tick s) as [[s' d]|]; [|discriminate].
    destruct (ticks_cycles tick a s') as [[s'' c]|] eqn:E; [|discriminate].
    injection Ha as <- <-.
    rewrite (IH s' s'' s2 c c2 E Hb).
    destruct (completes_cycle s s'); reflexivity.
Qed.

Lemma ticks_cycles_S (tick : tick_fn) (k : nat) (s s1 : tw_state) (d : Z) :
  tick s = Some (s1, d) ->
  ticks_cycles tick (S k) s =
    match ticks_cycles tick k s1 with
    | None => None
    | Some (s2, c) => Some (s2, if completes_cycle s s1 then S c else c)
    end.
Proof. intros E. simpl. now rewrite E. Qed.

(** Typing a message to its end takes one tick per character still
    missing and completes no cycle. *)
Lemma typing_phase (q : list string) (cur : string) (k : nat) :
  forall s,
    js_index q (messageIndex s) = Some cur ->
    isDeleting s = false ->
    charIndex s + Z.of_nat (S k) = js_length cur ->
    exists s',
      ticks_cycles (Rubaisha.typeStatus q) (S k) s = Some (s', O) /\
      messageIndex s' = messageIndex s /\
      charIndex s' = js_length cur /\ isDeleting s' = true.
Proof.
  induction k as [|k IH]; intros [m c del t] Hcur Hd Hc;
    cbn [messageIndex charIndex isDeleting] in *; subst del.
  - assert (Htick : Rubaisha.typeStatus q (mkTw m c false t)
             = Some (mkTw m (c + 1) true (js_substring cur 0 (c + 1)), 2000)).
    { unfold Rubaisha.typeStatus; simpl. rewrite Hcur.
      destruct (Z.eqb_spec (c + 1) (js_length cur)); [reflexivity | lia]. }
    rewrite (ticks_cycles_S _ _ _ _ _ Htick). simpl.
    eexists. split; [reflexivity|]. simpl. split; [reflexivity|]. split; [lia | reflexivity].
  - assert (Htick : Rubaisha.typeStatus q (mkTw m c false t)
             = Some (mkTw m (c + 1) false (js_substring cur 0 (c + 1)), 100)).
    { unfold Rubaisha.typeStatus; simpl. rewrite Hcur.
      destruct (Z.eqb_spec (c + 1) (js_length cur)); [lia | reflexivity]. }
    rewrite (ticks_cycles_S _ _ _ _ _ Htick).
    destruct (IH (mkTw m (c + 1) false (js_substring cur 0 (c + 1))))
      as [s' [E' [H1 [H2 H3]]]];
      cbn [messageIndex charIndex isDeleting]; auto; [lia|].
    rewrite E'. exists s'. auto.
Qed.

(** Deleting it again takes one tick per character and completes one
    cycle, at the last tick. *)
Lemma deleting_phase (q : list string) (cur : string) (k : nat) :
  forall s,
    js_index q (messageIndex s) = Some cur ->
    isDeleting s = true ->
    charIndex s = Z.of_nat (S k) ->
    exists s',
      ticks_cycles (Rubaisha.typeStatus q) (S k) s = Some (s', 1%nat) /\
      messageIndex s' = js_rem (messageIndex s + 1) (Z.of_nat (List.length q)) /\
      charIndex s' = 0 /\ isDeleting s' = false.
Proof.
  induction k as [|k IH]; intros [m c del t] Hcur Hd Hc;
    cbn [messageIndex charIndex isDeleting] in *; subst del.
  - assert (Htick : Rubaisha.typeStatus q (mkTw m c true t)
             = Some (mkTw (js_rem (m + 1) (Z.of_nat (List.length q))) (c - 1)
                       false (js_substring cur 0 (c - 1)), 100)).
    { unfold Rubaisha.typeStatus; simpl. rewrite Hcur.
      destruct (Z.eqb_spec (c - 1) 0); [reflexivity | lia]. }
    rewrite (ticks_cycles_S _ _ _ _ _ Htick). simpl.
    eexists. split; [reflexivity|]. simpl. split; [reflexivity|]. split; [lia | reflexivity].
  - assert (Htick : Rubaisha.typeStatus q (mkTw m c true t)
             = Some (mkTw m (c - 1) true (js_substring cur 0 (c - 1)), 50)).
    { unfold Rubaisha.typeStatus; simpl. rewrite Hcur.
      destruct (Z.eqb_spec (c - 1) 0); [lia | reflexivity]. }
    rewrite (ticks_cycles_S _ _ _ _ _ Htick).
    destruct (IH (mkTw m (c - 1) true (js_substring cur 0 (c - 1))))
      as [s' [E' [H1 [H2 H3]]]];
      cbn [messageIndex charIndex isDeleting]; auto; [lia|].
    rewrite E'. exists s'. auto.
Qed.

(** A whole cycle from the start of a message. *)
Lemma one_cycle (q : list string) (cur : string) (s : tw_state) :
  js_index q (messageIndex s) = Some cur ->
  0 < js_length cur ->
  isDeleting s = false -> charIndex s = 0 ->
  exists t s',
    ticks_cycles (Rubaisha.typeStatus q) t s = Some (s', 1%nat) /\
    messageIndex s' = js_rem (messageIndex s + 1) (Z.of_nat (List.length q)) /\
    charIndex s' = 0 /\ isDeleting s' = false.
Proof.
  intros Hcur Hpos Hd Hc.
  assert (Hk : exists k, js_length cur = Z.of_nat (S k)).
  { exists (Nat.pred (Z.to_nat (js_length cur))). lia. }
  destruct Hk as [k Hk].
  destruct (typing_phase q cur k s Hcur Hd) as [s1 [E1 [M1 [C1 D1]]]]; [lia|].
  destruct (deleting_phase q cur k s1) as [s2 [E2 [M2 [C2 D2]]]];
    [congruence | exact D1 | congruence |].
  exists (S k + S k)%nat, s2. split.
  - exact (ticks_cycles_app _ _ _ _ _ _ _ _ E1 E2).
  - rewrite M2, M1. auto.
Qed.

Lemma cycles_reached (q : list string) (markup : string) :
  q <> [] -> all_nonempty q ->
  forall k, exists t s,
    ticks_cycles (Rubaisha.typeStatus q) t (tw_init markup) = Some (s, k) /\
    0 <= messageIndex s < Z.of_nat (List.length q) /\
    charIndex s = 0 /\ isDeleting s = false.
Proof.
  intros Hne Hq. induction k as [|k [t [s [E [Hr [Hc Hd]]]]]].
  - exists O, (tw_init markup). split; [reflexivity|]. simpl.
    destruct q; [congruence|]. simpl List.length. split; [lia|auto].
  - destruct (js_index_defined q _ Hr) as [cur [Hcur Hin]].
    assert (Hpos : 0 < js_length cur).
    { unfold all_nonempty in Hq. rewrite Forall_forall in Hq. now apply Hq. }
    destruct (one_cycle q cur s Hcur Hpos Hd Hc) as [t' [s' [E' [M [C D]]]]].
    exists (t + t')%nat, s'. split.
    + replace (S k) with (k + 1)%nat by lia.
      exact (ticks_cycles_app _ _ _ _ _ _ _ _ E E').
    + rewrite M. split; [now apply js_rem_range | auto].
Qed.

(** C2.  For every queue of length [n >= 1], at any moment of a run
    started with [messageIndex = 0] the value of [messageIndex] is
    [k mod n], where [k] is the number of type-then-delete cycles
    completed so far; and when no message is empty every [k] is reached,
    at the tick that ends the [k]-th cycle. *)
Theorem messageIndex_after_cycles (q : list string) (markup : string) :
  (1 <= List.length q)%nat ->
  (forall t, exists s k,
     ticks_cycles (Rubaisha.typeStatus q) t (tw_init markup) = Some (s, k) /\
     messageIndex s = Z.of_nat k mod Z.of_nat (List.length q)) /\
  (all_nonempty q ->
   forall k, exists t s,
     ticks_cycles (Rubaisha.typeStatus q) t (tw_init markup) = Some (s, k) /\
     charIndex s = 0 /\ isDeleting s = false /\
     messageIndex s = Z.of_nat k mod Z.of_nat (List.length q)).
Proof.
  intros Hn.
  assert (Hall : forall t, exists s k,
     ticks_cycles (Rubaisha.typeStatus q) t (tw_init markup) = Some (s, k) /\
     messageIndex s = Z.of_nat k mod Z.of_nat (List.length q)).
  { intros t.
    destruct (cycles_index q t (tw_init markup) O) as [s [k [E Hm]]].
    - simpl. lia.
    - simpl. now rewrite Z.mod_0_l by lia.
    - exists s, k. auto. }
  split; [exact Hall|].
  intros Hq k.
  assert (Hne : q <> []) by (destruct q; [simpl in Hn; lia | discriminate]).
  destruct (cycles_reached q markup Hne Hq k) as [t [s [E [_ [Hc Hd]]]]].
  exists t, s. repeat split; auto.
  destruct (Hall t) as [s' [k' [E' Hm]]].
  rewrite E in E'. injection E' as <- <-. exact Hm.
Qed.

Lemma messageIndex_after_cycles_witness :
  (1 <= List.length Rubaisha.logMessages)%nat /\
  (forall t, exists s k,
     ticks_cycles (Rubaisha.typeStatus Rubaisha.logMessages) t (tw_init "")
       = Some (s, k) /\
     messageIndex s = Z.of_nat k mod Z.of_nat (List.length Rubaisha.logMessages)) /\
  (all_nonempty Rubaisha.logMessages ->
   forall k, exists t s,
     ticks_cycles (Rubaisha.typeStatus Rubaisha.logMessages) t (tw_init "")
       = Some (s, k) /\
     charIndex s = 0 /\ isDeleting s = false /\
     messageIndex s = Z.of_nat k mod Z.of_nat (List.length Rubaisha.logMessages)).
Proof.
  assert (H : (1 <= List.length Rubaisha.logMessages)%nat) by (simpl; lia).
  split; [exact H|].
  exact (messageIndex_after_cycles Rubaisha.logMessages "" H).
Defined.

(** *** Cadence *)

(** C6 (as amended).  In both pages the delay a tick schedules is decided
    by the state it leaves: 2000 ms when a typing tick brings [charIndex]
    to the length of the message; 100 ms after any other typing tick and
    after the deleting tick that brings [charIndex] to 0; 50 ms after
    every other deleting tick.  Said by the tick to come: 100 ms before
    every typing tick, 50 ms before every deleting tick but the first of a
    message, which comes after the 2000 ms pause. *)
Theorem tick_cadence (q : list string) (s : tw_state) (cur : string) :
  js_index q (messageIndex s) = Some cur ->
  exists sR sH d,
    Rubaisha.typeStatus q s = Some (sR, d) /\
    Hisham.typeStatus q s = Some (sH, d) /\
    control sH = control sR /\
    d = (if isDeleting s
         then (if charIndex sR =? 0 then 100 else 50)
         else (if charIndex sR =? js_length cur then 2000 else 100)) /\
    d = (if isDeleting sR
         then (if isDeleting s then 50 else 2000)
         else 100).
Proof.
  intros Hcur. destruct s as [m c del t]; simpl in *.
  unfold Rubaisha.typeStatus, Hisham.typeStatus, control; simpl. rewrite Hcur.
  destruct del; simpl.
  - destruct (c - 1 =? 0) eqn:E; simpl; do 3 eexists;
      (split; [reflexivity|]); (split; [reflexivity|]);
      (split; [reflexivity|]); simpl; rewrite E; split; reflexivity.
  - destruct (c + 1 =? js_length cur) eqn:E; simpl; do 3 eexists;
      (split; [reflexivity|]); (split; [reflexivity|]);
      (split; [reflexivity|]); simpl; rewrite E; split; reflexivity.
Qed.

Lemma tick_cadence_witness :
  js_index Rubaisha.logMessages (messageIndex (mkTw 1 25 true "")) =
    Some "// connection unstable..." /\
  exists sR sH d,
    Rubaisha.typeStatus Rubaisha.logMessages (mkTw 1 25 true "") = Some (sR, d) /\
    Hisham.typeStatus Rubaisha.logMessages (mkTw 1 25 true "") = Some (sH, d) /\
    control sH = control sR /\
    d = (if isDeleting (mkTw 1 25 true "")
         then (if charIndex sR =? 0 then 100 else 50)
         else (if charIndex sR =? js_length "// connection unstable..."
               then 2000 else 100)) /\
    d = (if isDeleting sR
         then (if isDeleting (mkTw 1 25 true "") then 50 else 2000)
         else 100).
Proof.
  split; [reflexivity|].
  apply (tick_cadence Rubaisha.logMessages (mkTw 1 25 true "")
           "// connection unstable...").
  reflexivity.
Defined.

(** C6 as stated fails at the last deleting tick of every message: it is
    taken in the deleting mode and schedules the next tick after 100 ms,
    not 50 ms.  Here on the queue ["a"; "bb"], second tick of the run. *)
Lemma tick_cadence_counterexample :
  exists s s',
    ticks (Rubaisha.typeStatus ["a"; "bb"]) 1 (tw_init "") = Some s /\
    isDeleting s = true /\
    Rubaisha.typeStatus ["a"; "bb"] s = Some (s', 100) /\
    Hisham.typeStatus ["a"; "bb"] s = Some (set_textContent s' "a", 100).
Proof. do 2 eexists. repeat split; reflexivity. Qed.

(** C7 (as amended).  Queue ["a"; "bb"], initial state: the first tick
    displays "a", already sets [isDeleting] and schedules the next tick
    after the 2000 ms pause; that second tick, the only deleting one,
    empties the display, clears [isDeleting], moves [messageIndex] to 1
    (the message "bb") and schedules the next tick after 100 ms; the third
    tick displays "b". *)
Theorem scenario_a_bb (markup : string) :
  run (Rubaisha.typeStatus ["a"; "bb"]) 3 (tw_init markup) =
    Some [ (mkTw 0 1 true "a", 2000);
           (mkTw 1 0 false "", 100);
           (mkTw 1 1 false "b", 100) ] /\
  js_index ["a"; "bb"] 1 = Some "bb".
Proof. split; reflexivity. Qed.

(** C7 as stated fails: [isDeleting] is set by the first tick, not the
    second; the first two ticks are 2000 ms apart, not 100 ms; and after
    two ticks [isDeleting] is false again. *)
Lemma scenario_a_bb_counterexample :
  exists s1 d1 s2 d2,
    run (Rubaisha.typeStatus ["a"; "bb"]) 2 (tw_init "") =
      Some [(s1, d1); (s2, d2)] /\
    isDeleting s1 = true /\ d1 <> 100 /\ isDeleting s2 = false.
Proof.
  do 4 eexists. split; [reflexivity|].
  split; [reflexivity|]. split; [discriminate | reflexivity].
Qed.

(** *** The two pages compared *)

Lemma cursors_ok_control (q : list string) (a b : tw_state) :
  control a = control b -> cursors_ok q a -> cursors_ok q b.
Proof.
  destruct a, b; unfold control, cursors_ok; simpl.
  intros E; injection E as -> -> ->. auto.
Qed.

(** Both runs exist, step for step with equal cursors, and the cursors
    stay in range. *)
Lemma reachable_cursors (q : list string) (markup : string) (n : nat) :
  q <> [] -> all_nonempty q ->
  exists sR sH,
    ticks (Rubaisha.typeStatus q) n (tw_init markup) = Some sR /\
    ticks (Hisham.typeStatus q) n (tw_init markup) = Some sH /\
    control sH = control sR /\ cursors_ok q sR.
Proof.
  intros Hne Hq. destruct n as [|n].
  - exists (tw_init markup), (tw_init markup).
    repeat split; auto using init_cursors_ok.
  - destruct (typewriter_run_exists q markup n Hne Hq) as [sR [ER Hok]].
    pose proof (ticks_control_agree q (S n) (tw_init markup) (tw_init markup)
                  eq_refl) as HA.
    rewrite ER in HA.
    destruct (ticks (Hisham.typeStatus q) (S n) (tw_init markup)) as [sH|];
      [|contradiction].
    exists sR, sH. auto.
Qed.

Lemma js_substring_shorter (cur : string) (c : Z) :
  0 <= c < js_length cur -> js_substring cur 0 c <> cur.
Proof.
  intros Hc E. pose proof (js_length_substring cur c) as H.
  rewrite E in H. lia.
Qed.

Lemma js_substring_differ (cur : string) (c : Z) :
  0 <= c < js_length cur ->
  js_substring cur 0 c <> js_substring cur 0 (c + 1).
Proof.
  intros Hc E.
  pose proof (js_length_substring cur c) as H1.
  pose proof (js_length_substring cur (c + 1)) as H2.
  rewrite E in H1. lia.
Qed.

(** C9 (as amended).  On a queue without empty message the two pages run
    with equal cursors but different displays.  A typing tick of the
    Hisham page displays the prefix of length [charIndex] taken before the
    increment: never the full message, and one character less than the
    Rubaisha page at the same tick.  At the tick that switches to
    deleting the Hisham display has length [len(currentMessage) - 1] while
    the Rubaisha page displays the full message; the Hisham page displays
    the full message one tick later, at its first deleting tick. *)
Theorem variants_differ (q : list string) (markup : string) (n : nat) :
  q <> [] -> all_nonempty q ->
  Hisham.typeStatus q (tw_init markup) <> Rubaisha.typeStatus q (tw_init markup) /\
  exists sH sR cur,
    ticks (Hisham.typeStatus q) n (tw_init markup) = Some sH /\
    ticks (Rubaisha.typeStatus q) n (tw_init markup) = Some sR /\
    control sH = control sR /\
    js_index q (messageIndex sH) = Some cur /\
    (isDeleting sH = false ->
     exists sH' sR' d,
       Hisham.typeStatus q sH = Some (sH', d) /\
       Rubaisha.typeStatus q sR = Some (sR', d) /\
       textContent sH' = js_substring cur 0 (charIndex sH) /\
       textContent sH' <> cur /\
       textContent sH' <> textContent sR' /\
       (isDeleting sH' = true ->
        js_length (textContent sH') = js_length cur - 1 /\
        textContent sR' = cur /\
        exists sH'' d',
          Hisham.typeStatus q sH' = Some (sH'', d') /\
          textContent sH'' = cur)).
Proof.
  intros Hne Hq. split.
  - destruct q as [|m q]; [congruence|].
    inversion Hq as [|? ? Hm _]; subst.
    assert (Hd : js_substring m 0 0 <> js_substring m 0 (0 + 1))
      by (apply (js_substring_differ m 0); lia).
    unfold Hisham.typeStatus, Rubaisha.typeStatus.
    cbn -[Z.eqb Z.add js_substring js_length].
    destruct (0 + 1 =? js_length m); intros E; injection E as E;
      contradiction.
  - destruct (reachable_cursors q markup n Hne Hq)
      as [sR [sH [ER [EH [HC Hok]]]]].
    apply (cursors_ok_control q sR sH (eq_sym HC)) in Hok.
    destruct Hok as [cur [Hcur Hc]].
    exists sH, sR, cur. repeat (split; [assumption|]).
    intros Hd. rewrite Hd in Hc.
    destruct sH as [m c del tH], sR as [m' c' del' tR].
    unfold control in HC; simpl in *. injection HC as <- <- <-. subst del.
    unfold Hisham.typeStatus, Rubaisha.typeStatus; simpl. rewrite Hcur.
    destruct (Z.eqb_spec (c + 1) (js_length cur)) as [E|E]; simpl.
    + do 3 eexists. split; [reflexivity|]. split; [reflexivity|]. simpl.
      split; [reflexivity|].
      split; [now apply js_substring_shorter|].
      split; [now apply js_substring_differ|].
      intros _. split; [rewrite js_length_substring; lia|].
      split; [rewrite E; apply js_substring_full|].
      rewrite Hcur.
      destruct (c + 1 - 1 =? 0); simpl; do 2 eexists;
        (split; [reflexivity|]); simpl;
        rewrite E; apply js_substring_full.
    + do 3 eexists. split; [reflexivity|]. split; [reflexivity|]. simpl.
      split; [reflexivity|].
      split; [now apply js_substring_shorter|].
      split; [now apply js_substring_differ|].
      discriminate.
Qed.

Lemma variants_differ_witness :
  Hisham.logMessages <> [] /\ all_nonempty Hisham.logMessages /\
  Hisham.typeStatus Hisham.logMessages (tw_init "")
    <> Rubaisha.typeStatus Hisham.logMessages (tw_init "") /\
  exists sH sR cur,
    ticks (Hisham.typeStatus Hisham.logMessages) 24 (tw_init "") = Some sH /\
    ticks (Rubaisha.typeStatus Hisham.logMessages) 24 (tw_init "") = Some sR /\
    control sH = control sR /\
    js_index Hisham.logMessages (messageIndex sH) = Some cur /\
    (isDeleting sH = false ->
     exists sH' sR' d,
       Hisham.typeStatus Hisham.logMessages sH = Some (sH', d) /\
       Rubaisha.typeStatus Hisham.logMessages sR = Some (sR', d) /\
       textContent sH' = js_substring cur 0 (charIndex sH) /\
       textContent sH' <> cur /\
       textContent sH' <> textContent sR' /\
       (isDeleting sH' = true ->
        js_length (textContent sH') = js_length cur - 1 /\
        textContent sR' = cur /\
        exists sH'' d',
          Hisham.typeStatus Hisham.logMessages sH' = Some (sH'', d') /\
          textContent sH'' = cur)).
Proof.
  assert (H1 : Hisham.logMessages <> []) by discriminate.
  assert (H2 : all_nonempty Hisham.logMessages) by (repeat constructor).
  split; [exact H1|]. split; [exact H2|].
  exact (variants_differ Hisham.logMessages "" 24 H1 H2).
Defined.

(** C9 as stated fails: the Hisham page does display the full current
    message, at the first deleting tick of each message (tick 26 of the
    page's own queue, whose first message has 25 characters); and an
    empty message is displayed in full by every typing tick. *)
Lemma variants_differ_counterexample :
  (exists s cur,
     ticks (Hisham.typeStatus Hisham.logMessages) 26 (tw_init "") = Some s /\
     js_index Hisham.logMessages (messageIndex s) = Some cur /\
     isDeleting s = true /\
     textContent s = cur) /\
  (exists s cur,
     ticks (Hisham.typeStatus [""]) 1 (tw_init "") = Some s /\
     js_index [""] (messageIndex s) = Some cur /\
     isDeleting s = false /\
     textContent s = cur).
Proof.
  split; do 2 eexists; (split; [vm_compute; reflexivity|]);
    repeat split; reflexivity.
Qed.

(** ** The scene player *)

Lemma js_index_In {A : Type} (arr : list A) (i : Z) (x : A) :
  js_index arr i = Some x -> In x arr.
Proof.
  unfold js_index. destruct (i <? 0); [discriminate|]. apply nth_error_In.
Qed.

Lemma prefix_append (a b : string) : String.prefix a (a ++ b) = true.
Proof.
  induction a as [|c a IH]; simpl.
  - destruct b; reflexivity.
  - destruct (ascii_dec c c) as [_|N]; [exact IH | congruence].
Qed.

Section ScenePlayerFacts.

Variable env : browser.
Variable chain : list scene.

(** What one call of [showScene] does to each part of the page. *)
Lemma showScene_defined (i : Z) (s : player) (sc : scene) :
  js_index chain i = Some sc ->
  hasElement env (audio sc) = true ->
  exists s',
    showScene env chain i s = Some s' /\
    currentScene s' = currentScene s /\
    sceneImage_src s' = image sc /\
    opening_display s' = opening_display s /\
    game_display s' = game_display s /\
    played (io s') = (played (io s) ++ [audio sc])%list /\
    console (io s') = console (io s) /\
    match next sc with
    | Some _ =>
      dialogueBox_textContent s' = dialogue sc /\
      nextBtn_display s' = "block" /\
      nextBtn_onclick s' = Some sc
    | None =>
      dialogueBox_textContent s' = (dialogue sc ++ epilogue)%string /\
      nextBtn_display s' = "none" /\
      nextBtn_onclick s' = nextBtn_onclick s
    end.
Proof.
  intros Hsc Ha. unfold showScene. rewrite Hsc. simpl. rewrite Ha.
  destruct (next sc); simpl; eexists; (split; [reflexivity|]); simpl;
    repeat split; reflexivity.
Qed.

Lemma walk_pos (fuel : nat) (i : Z) (L : nat) :
  walk chain fuel i = Some L -> (1 <= L)%nat.
Proof.
  destruct fuel as [|f]; simpl; [discriminate|].
  destruct (js_index chain i) as [sc|]; [|discriminate].
  destruct (next sc) as [j|].
  - destruct (walk chain f j); simpl; [|discriminate].
    intros E; injection E as <-. lia.
  - intros E; injection E as <-. lia.
Qed.

(** Showing scene [i] and then activating the control [k] times, along a
    chain of [L] scenes that starts at [i]. *)
Lemma walk_continue (fuel : nat) :
  forall (i : Z) (L : nat),
    walk chain fuel i = Some L ->
    sounds_defined env chain ->
    forall (s : player) (k : nat),
      currentScene s = i -> (k < L)%nat ->
      exists s1 s' sc,
        showScene env chain i s = Some s1 /\
        continue_clicks env chain k s1 = Some s' /\
        js_index chain (currentScene s') = Some sc /\
        sceneImage_src s' = image sc /\
        if (S k =? L)%nat
        then next sc = None /\ nextBtn_display s' = "none"
        else next sc <> None /\ nextBtn_display s' = "block".
Proof.
  induction fuel as [|f IH]; intros i L Hw Hs s k Hi Hk; simpl in Hw;
    [discriminate|].
  destruct (js_index chain i) as [sc0|] eqn:Hsc; [|discriminate].
  assert (Ha : hasElement env (audio sc0) = true).
  { unfold sounds_defined in Hs. rewrite Forall_forall in Hs.
    apply Hs. eapply js_index_In; eassumption. }
  destruct (showScene_defined i s sc0 Hsc Ha)
    as [s1 [E1 [Hc [Himg [_ [_ [_ [_ Hn]]]]]]]].
  destruct (next sc0) as [j|] eqn:Hnext.
  - destruct (walk chain f j) as [L'|] eqn:Hw'; simpl in Hw; [|discriminate].
    injection Hw as <-. destruct Hn as [_ [Hdisp Hclick]].
    pose proof (walk_pos f j L' Hw') as Hpos.
    destruct k as [|k].
    + exists s1, s1, sc0. split; [exact E1|]. split; [reflexivity|].
      split; [now rewrite Hc, Hi|]. split; [exact Himg|].
      destruct (Nat.eqb_spec 1 (S L')) as [E|E]; [lia|].
      split; [congruence | exact Hdisp].
    + destruct (IH j L' Hw' Hs (set_currentScene s1 j) k eq_refl)
        as [s2 [s' [sc [E2 [E3 H]]]]]; [lia|].
      exists s1, s', sc. split; [exact E1|]. split; [|exact H].
      simpl. unfold nextBtn_click. rewrite Hclick, Hnext. simpl.
      simpl in E2. rewrite E2. exact E3.
  - injection Hw as <-. destruct Hn as [_ [Hdisp _]].
    assert (k = O) by lia. subst k.
    exists s1, s1, sc0. split; [exact E1|]. split; [reflexivity|].
    split; [now rewrite Hc, Hi|]. split; [exact Himg|].
    simpl. split; [exact Hnext | exact Hdisp].
Qed.

End ScenePlayerFacts.

(** C3.  On a well-formed chain of [L] scenes (following [next] from the
    first scene ends at a scene without [next], and every sound named is
    an element of the page), the start signal followed
    by [k] activations of the continue control, [k <= L - 1], displays a
    scene of the chain; that scene is the terminal one (no [next]) exactly
    when [k = L - 1], where the control is hidden, and at every [k] before
    the scene has a successor and the control is shown. *)
Theorem continue_reaches_terminal
    (env : browser) (chain : list scene) (L : nat) (s0 : player) (k : nat) :
  chainLength chain = Some L ->
  sounds_defined env chain ->
  currentScene s0 = 0 ->
  (k <= L - 1)%nat ->
  exists s sc,
    start_then_continue env chain k s0 = Some s /\
    js_index chain (currentScene s) = Some sc /\
    sceneImage_src s = image sc /\
    if (k =? L - 1)%nat
    then next sc = None /\ nextBtn_display s = "none"
    else next sc <> None /\ nextBtn_display s = "block".
Proof.
  intros HL Hs H0 Hk. unfold chainLength in HL.
  pose proof (walk_pos chain _ _ _ HL) as Hpos.
  destruct (walk_continue env chain _ 0 L HL Hs
              (set_game (set_opening s0 "none") "block") k H0)
    as [s1 [s [sc [E1 [E2 [Hsc [Himg H]]]]]]]; [lia|].
  exists s, sc. unfold start_then_continue, start_click.
  simpl currentScene. rewrite H0.
  rewrite E1. split; [exact E2|]. split; [exact Hsc|]. split; [exact Himg|].
  destruct (Nat.eqb_spec (S k) L) as [E|E];
    destruct (Nat.eqb_spec k (L - 1)) as [E'|E']; try lia; exact H.
Qed.

Lemma continue_reaches_terminal_witness :
  chainLength scenes = Some 3%nat /\
  sounds_defined env_blocked scenes /\
  currentScene player_init = 0 /\
  (2 <= 3 - 1)%nat /\
  exists s sc,
    start_then_continue env_blocked scenes 2 player_init = Some s /\
    js_index scenes (currentScene s) = Some sc /\
    sceneImage_src s = image sc /\
    if (2 =? 3 - 1)%nat
    then next sc = None /\ nextBtn_display s = "none"
    else next sc <> None /\ nextBtn_display s = "block".
Proof.
  assert (H1 : chainLength scenes = Some 3%nat) by reflexivity.
  assert (H2 : sounds_defined env_blocked scenes) by (repeat constructor).
  assert (H3 : currentScene player_init = 0) by reflexivity.
  assert (H4 : (2 <= 3 - 1)%nat) by (simpl; lia).
  repeat (split; [assumption|]).
  exact (continue_reaches_terminal env_blocked scenes 3 player_init 2
           H1 H2 H3 H4).
Defined.

(** C4.  For a valid scene index (a scene of the array whose sound is an
    element of the page), a second call of [showScene] with the
    same index leaves the displayed image, the displayed dialogue and the
    control as the first call left them, while each call triggers the
    scene's sound once more. *)
Theorem showScene_twice
    (env : browser) (chain : list scene) (i : Z) (s : player) (sc : scene) :
  js_index chain i = Some sc ->
  hasElement env (audio sc) = true ->
  exists s1 s2,
    showScene env chain i s = Some s1 /\
    showScene env chain i s1 = Some s2 /\
    sceneImage_src s2 = sceneImage_src s1 /\
    dialogueBox_textContent s2 = dialogueBox_textContent s1 /\
    nextBtn_display s2 = nextBtn_display s1 /\
    played (io s1) = (played (io s) ++ [audio sc])%list /\
    played (io s2) = (played (io s1) ++ [audio sc])%list.
Proof.
  intros Hsc Ha.
  destruct (showScene_defined env chain i s sc Hsc Ha)
    as [s1 [E1 [_ [I1 [_ [_ [P1 [_ N1]]]]]]]].
  destruct (showScene_defined env chain i s1 sc Hsc Ha)
    as [s2 [E2 [_ [I2 [_ [_ [P2 [_ N2]]]]]]]].
  exists s1, s2. repeat (split; [assumption|]).
  split; [congruence|].
  destruct (next sc); destruct N1 as [D1 [B1 _]], N2 as [D2 [B2 _]];
    repeat split; congruence.
Qed.

Lemma showScene_twice_witness :
  js_index scenes 2 = Some (mkScene "images/window.jpg"
      "You see the note. Blood trails on the glass." "scream" None) /\
  hasElement env_ok "scream" = true /\
  exists s1 s2,
    showScene env_ok scenes 2 player_init = Some s1 /\
    showScene env_ok scenes 2 s1 = Some s2 /\
    sceneImage_src s2 = sceneImage_src s1 /\
    dialogueBox_textContent s2 = dialogueBox_textContent s1 /\
    nextBtn_display s2 = nextBtn_display s1 /\
    played (io s1) = (played (io player_init) ++ ["scream"])%list /\
    played (io s2) = (played (io s1) ++ ["scream"])%list.
Proof.
  split; [reflexivity|]. split; [reflexivity|].
  exact (showScene_twice env_ok scenes 2 player_init _ eq_refl eq_refl).
Defined.

(** C5.  Called with the index of a scene without [next], [showScene]
    hides the continue control and leaves as dialogue the scene's own
    dialogue string followed by the fixed closing line; the original
    text stays, as the beginning of what is displayed. *)
Theorem showScene_terminal
    (env : browser) (chain : list scene) (i : Z) (s : player) (sc : scene) :
  js_index chain i = Some sc ->
  hasElement env (audio sc) = true ->
  next sc = None ->
  exists s',
    showScene env chain i s = Some s' /\
    nextBtn_display s' = "none" /\
    dialogueBox_textContent s' = (dialogue sc ++ epilogue)%string /\
    String.prefix (dialogue sc) (dialogueBox_textContent s') = true.
Proof.
  intros Hsc Ha Hn.
  destruct (showScene_defined env chain i s sc Hsc Ha)
    as [s' [E [_ [_ [_ [_ [_ [_ N]]]]]]]].
  rewrite Hn in N. destruct N as [D [B _]].
  exists s'. repeat (split; [assumption|]).
  rewrite D. apply prefix_append.
Qed.

Lemma showScene_terminal_witness :
  js_index scenes 2 = Some (mkScene "images/window.jpg"
      "You see the note. Blood trails on the glass." "scream" None) /\
  exists s',
    showScene env_ok scenes 2 player_init = Some s' /\
    nextBtn_display s' = "none" /\
    dialogueBox_textContent s' =
      ("You see the note. Blood trails on the glass." ++ epilogue)%string /\
    String.prefix "You see the note. Blood trails on the glass."
      (dialogueBox_textContent s') = true.
Proof.
  split; [reflexivity|].
  exact (showScene_terminal env_ok scenes 2 player_init _
           eq_refl eq_refl eq_refl).
Defined.

(** C10.  An activation of the start control calls [showScene] at the
    current value of [currentScene] and leaves that cursor unchanged: the
    scene it displays is the current one, wherever the player has
    advanced to, not the first. *)
Theorem start_keeps_cursor
    (env : browser) (chain : list scene) (s : player) (sc : scene) :
  js_index chain (currentScene s) = Some sc ->
  hasElement env (audio sc) = true ->
  exists s',
    start_click env chain s = Some s' /\
    start_click env chain s =
      showScene env chain (currentScene s)
        (set_game (set_opening s "none") "block") /\
    currentScene s' = currentScene s /\
    sceneImage_src s' = image sc.
Proof.
  intros Hsc Ha.
  destruct (showScene_defined env chain (currentScene s)
              (set_game (set_opening s "none") "block") sc Hsc Ha)
    as [s' [E [C [I _]]]].
  exists s'. unfold start_click. simpl currentScene in *.
  repeat split; assumption.
Qed.

Lemma start_keeps_cursor_witness :
  start_then_continue env_ok scenes 2 player_init = Some at_last_scene /\
  exists s',
    start_click env_ok scenes at_last_scene = Some s' /\
    start_click env_ok scenes at_last_scene =
      showScene env_ok scenes 2
        (set_game (set_opening at_last_scene "none") "block") /\
    currentScene s' = 2 /\
    sceneImage_src s' = "images/window.jpg".
Proof.
  split; [reflexivity|].
  exact (start_keeps_cursor env_ok scenes at_last_scene
           (mkScene "images/window.jpg"
              "You see the note. Blood trails on the glass." "scream" None)
           eq_refl eq_refl).
Defined.

(** ** Playback failures *)

(** C8 (as amended).  Whether [play()] settles as started or as rejected,
    [showScene] yields the same page (cursor, image, dialogue, control and
    its closure) after exactly one attempt, and returns normally.  In the
    music player of the Hisham page a rejected attempt leaves the status
    log untouched, sets the same button text as a started one, is
    attempted once, and writes one line to the console. *)
Theorem playback_failure_frame
    (env env' : browser) (chain : list scene) (i : Z) (s : player)
    (sc : scene) (m : music) :
  (forall id, hasElement env id = hasElement env' id) ->
  js_index chain i = Some sc ->
  hasElement env (audio sc) = true ->
  song_paused m = true ->
  (exists s',
     showScene env chain i s = Some s' /\
     showScene env' chain i s = Some s' /\
     currentScene s' = currentScene s /\
     played (io s') = (played (io s) ++ [audio sc])%list) /\
  status (playBtn_click env m) = status m /\
  playBtn_textContent (playBtn_click env m) =
    playBtn_textContent (playBtn_click env' m) /\
  played (mio (playBtn_click env m)) =
    (played (mio m) ++ ["background-song"])%list /\
  console (mio (playBtn_click env m)) =
    match playOutcome env (List.length (played (mio m))) with
    | PlayStarted => console (mio m)
    | PlayRejected error =>
      (console (mio m) ++ [("Audio play failed: " ++ error)%string])%list
    end.
Proof.
  intros Hel Hsc Ha Hp. split.
  - destruct (showScene_defined env chain i s sc Hsc Ha)
      as [s' [E [C [_ [_ [_ [P _]]]]]]].
    exists s'. split; [exact E|]. split; [|auto].
    rewrite <- E. unfold showScene. rewrite Hsc. simpl.
    rewrite <- Hel. rewrite Ha. reflexivity.
  - unfold playBtn_click. rewrite Hp. simpl.
    destruct (playOutcome env (List.length (played (mio m))));
      destruct (playOutcome env' (List.length (played (mio m))));
      simpl; repeat split; reflexivity.
Qed.

Lemma playback_failure_frame_witness :
  (exists s',
     showScene env_blocked scenes 0 player_init = Some s' /\
     showScene env_ok scenes 0 player_init = Some s' /\
     currentScene s' = currentScene player_init /\
     played (io s') = (played (io player_init) ++ ["whisper"])%list) /\
  status (playBtn_click env_blocked music_init) = status music_init /\
  playBtn_textContent (playBtn_click env_blocked music_init) =
    playBtn_textContent (playBtn_click env_ok music_init) /\
  played (mio (playBtn_click env_blocked music_init)) =
    (played (mio music_init) ++ ["background-song"])%list /\
  console (mio (playBtn_click env_blocked music_init)) =
    match playOutcome env_blocked (List.length (played (mio music_init))) with
    | PlayStarted => console (mio music_init)
    | PlayRejected error =>
      (console (mio music_init) ++ [("Audio play failed: " ++ error)%string])%list
    end.
Proof.
  exact (playback_failure_frame env_blocked env_ok scenes 0 player_init
           (mkScene "images/bedroom.jpg"
              "The room reeks of despair. A razor sits on the dresser."
              "whisper" (Some 1))
           music_init (fun _ => eq_refl) eq_refl eq_refl eq_refl).
Defined.

(** C8 as stated fails in the scene player: when the [play()] of
    [showScene] is rejected the page keeps no trace of it, nothing is
    written to the console and the page is the one a started playback
    leaves. *)
Lemma playback_failure_counterexample :
  playOutcome env_blocked 0 = PlayRejected "NotAllowedError" /\
  exists s',
    showScene env_blocked scenes 0 player_init = Some s' /\
    console (io s') = [] /\
    showScene env_ok scenes 0 player_init = Some s'.
Proof.
  split; [reflexivity|]. eexists.
  split; [reflexivity|]. split; reflexivity.
Qed.

(** * Further properties *)

(** ** The typewriter: one page one tick behind the other *)

Lemma ticks_snoc (tick : tick_fn) (n : nat) :
  forall s s1,
    ticks tick n s = Some s1 ->
    ticks tick (S n) s =
      match tick s1 with
      | None => None
      | Some (s2, _) => Some s2
      end.
Proof.
  induction n as [|n IH]; intros s s1 E.
  - injection E as <-. simpl. destruct (tick s) as [[s2 d]|]; reflexivity.
  - change (ticks tick (S n) s) with
      (match tick s with None => None | Some (s', _) => ticks tick n s' end) in E.
    change (ticks tick (S (S n)) s) with
      (match tick s with None => None | Some (s', _) => ticks tick (S n) s' end).
    destruct (tick s) as [[s' d]|]; [|discriminate].
    now apply IH.
Qed.

(** After a tick of the Rubaisha page, the next tick of the Hisham page
    from the same cursors displays what the Rubaisha page displays now. *)
Lemma hisham_shows_previous (q : list string) (s sR sH sH' : tw_state) (d d' : Z) :
  Rubaisha.typeStatus q s = Some (sR, d) ->
  control sH = control sR ->
  Hisham.typeStatus q sH = Some (sH', d') ->
  textContent sH' = textContent sR.
Proof.
  destruct s as [m c del t], sH as [mH cH delH tH].
  unfold Rubaisha.typeStatus, Hisham.typeStatus, control.
  cbn -[Z.eqb js_substring js_length js_rem].
  destruct (js_index q m) as [cur|] eqn:Hcur; [|discriminate].
  destruct del.
  - destruct (Z.eqb_spec (c - 1) 0) as [E|E];
      cbn -[Z.eqb js_substring js_length js_rem];
      intros R; injection R as <- <-;
      cbn -[Z.eqb js_substring js_length js_rem];
      intros C; injection C as -> -> ->.
    + destruct (js_index q (js_rem (m + 1) (Z.of_nat (List.length q))))
        as [cur'|]; [|discriminate].
      cbn -[Z.eqb js_substring js_length js_rem].
      rewrite E.
      destruct (0 + 1 =? js_length cur'); intros H; injection H as <- _;
        cbn; now rewrite !js_substring_0_0.
    + rewrite Hcur. cbn -[Z.eqb js_substring js_length js_rem].
      destruct (c - 1 - 1 =? 0); intros H; injection H as <- _; reflexivity.
  - destruct (Z.eqb_spec (c + 1) (js_length cur)) as [E|E];
      cbn -[Z.eqb js_substring js_length js_rem];
      intros R; injection R as <- <-;
      cbn -[Z.eqb js_substring js_length js_rem];
      intros C; injection C as -> -> ->; rewrite Hcur;
      cbn -[Z.eqb js_substring js_length js_rem].
    + destruct (c + 1 - 1 =? 0); intros H; injection H as <- _; reflexivity.
    + destruct (c + 1 + 1 =? js_length cur); intros H; injection H as <- _;
        reflexivity.
Qed.

(** A run from the initial state never throws on a queue that is not
    empty. *)
Lemma rubaisha_run_total (q : list string) (markup : string) (n : nat) :
  q <> [] ->
  exists s, ticks (Rubaisha.typeStatus q) n (tw_init markup) = Some s.
Proof.
  intros Hne.
  assert (H : forall n s, 0 <= messageIndex s < Z.of_nat (List.length q) ->
            exists s', ticks (Rubaisha.typeStatus q) n s = Some s').
  { clear n. induction n as [|n IH]; intros s Hr; [now exists s|].
    destruct (js_index_defined q _ Hr) as [cur [Hcur _]].
    destruct (rubaisha_tick_index q s cur Hcur) as [s1 [d [E Hi]]].
    simpl. rewrite E. apply IH. rewrite Hi.
    destruct (completes_cycle s s1); [now apply js_rem_range | exact Hr]. }
  apply H. simpl. destruct q; [congruence | simpl List.length; lia].
Qed.

(** X1.  On any non-empty queue, with or without empty messages, both
    runs from the initial state go on for ever, and after tick [n + 2] the
    Hisham page displays exactly what the Rubaisha page displayed after
    tick [n + 1]: the Hisham display is the Rubaisha display one tick
    late. *)
Theorem hisham_one_tick_late (q : list string) (markup : string) (n : nat) :
  q <> [] ->
  exists sR sH,
    ticks (Rubaisha.typeStatus q) (S n) (tw_init markup) = Some sR /\
    ticks (Hisham.typeStatus q) (S (S n)) (tw_init markup) = Some sH /\
    textContent sH = textContent sR.
Proof.
  intros Hne.
  destruct (rubaisha_run_total q markup n Hne) as [s0 E0].
  destruct (rubaisha_run_total q markup (S n) Hne) as [sR ER].
  destruct (rubaisha_run_total q markup (S (S n)) Hne) as [sR2 ER2].
  pose proof (ticks_control_agree q (S n) (tw_init markup) (tw_init markup)
                eq_refl) as HA1.
  pose proof (ticks_control_agree q (S (S n)) (tw_init markup) (tw_init markup)
                eq_refl) as HA2.
  rewrite ER in HA1. rewrite ER2 in HA2.
  destruct (ticks (Hisham.typeStatus q) (S n) (tw_init markup))
    as [sH1|] eqn:EH1; [|contradiction].
  destruct (ticks (Hisham.typeStatus q) (S (S n)) (tw_init markup))
    as [sH|] eqn:EH; [|contradiction].
  exists sR, sH. split; [exact ER|]. split; [reflexivity|].
  rewrite (ticks_snoc _ _ _ _ E0) in ER.
  rewrite (ticks_snoc _ _ _ _ EH1) in EH.
  destruct (Rubaisha.typeStatus q s0) as [[sR' d]|] eqn:TR; [|discriminate].
  injection ER as ->.
  destruct (Hisham.typeStatus q sH1) as [[sH' d']|] eqn:TH; [|discriminate].
  injection EH as ->.
  exact (hisham_shows_previous q s0 sR sH1 sH d d' TR (eq_sym HA1) TH).
Qed.

Lemma hisham_one_tick_late_witness :
  Hisham.logMessages <> [] /\
  exists sR sH,
    ticks (Rubaisha.typeStatus Hisham.logMessages) 25 (tw_init "") = Some sR /\
    ticks (Hisham.typeStatus Hisham.logMessages) 26 (tw_init "") = Some sH /\
    textContent sH = textContent sR.
Proof.
  assert (H : Hisham.logMessages <> []) by discriminate.
  split; [exact H|].
  exact (hisham_one_tick_late Hisham.logMessages "" 24 H).
Defined.

(** ** The typewriter: duration of a cycle *)

Lemma ticks_elapsed_S (tick : tick_fn) (k : nat) (s s1 : tw_state) (d : Z) :
  tick s = Some (s1, d) ->
  ticks_elapsed tick (S k) s =
    match ticks_elapsed tick k s1 with
    | None => None
    | Some (s2, t) => Some (s2, d + t)
    end.
Proof. intros E. simpl. now rewrite E. Qed.

Lemma ticks_elapsed_app (tick : tick_fn) (a b : nat) :
  forall s s1 s2 t1 t2,
    ticks_elapsed tick a s = Some (s1, t1) ->
    ticks_elapsed tick b s1 = Some (s2, t2) ->
    ticks_elapsed tick (a + b) s = Some (s2, t1 + t2).
Proof.
  induction a as [|a IH]; intros s s1 s2 t1 t2 Ha Hb; simpl in *.
  - injection Ha as <- <-. rewrite Hb. reflexivity.
  - destruct (tick s) as [[s' d]|]; [|discriminate].
    destruct (ticks_elapsed tick a s') as [[s'' t]|] eqn:E; [|discriminate].
    injection Ha as <- <-.
    rewrite (IH s' s'' s2 t t2 E Hb). f_equal. f_equal. lia.
Qed.

Lemma elapsed_agree (q : list string) (n : nat) :
  forall s1 s2, control s1 = control s2 ->
  match ticks_elapsed (Rubaisha.typeStatus q) n s1,
        ticks_elapsed (Hisham.typeStatus q) n s2 with
  | Some (a, t), Some (b, t') => control a = control b /\ t = t'
  | None, None => True
  | _, _ => False
  end.
Proof.
  induction n as [|n IH]; intros s1 s2 E; simpl; [auto|].
  pose proof (tick_control_agree q s1 s2 E) as H.
  destruct (Rubaisha.typeStatus q s1) as [[a d]|],
           (Hisham.typeStatus q s2) as [[b d']|]; try contradiction; auto.
  destruct H as [H ->]. specialize (IH a b H).
  destruct (ticks_elapsed (Rubaisha.typeStatus q) n a) as [[a' t]|],
           (ticks_elapsed (Hisham.typeStatus q) n b) as [[b' t']|];
    try contradiction; auto.
  destruct IH as [IH ->]. auto.
Qed.

Lemma typing_elapsed (q : list string) (cur : string) (k : nat) :
  forall s,
    js_index q (messageIndex s) = Some cur ->
    isDeleting s = false ->
    charIndex s + Z.of_nat (S k) = js_length cur ->
    exists s',
      ticks_elapsed (Rubaisha.typeStatus q) (S k) s
        = Some (s', 100 * Z.of_nat k + 2000) /\
      control s' = (messageIndex s, js_length cur, true) /\
      textContent s' = cur.
Proof.
  induction k as [|k IH]; intros [m c del t] Hcur Hd Hc;
    cbn [messageIndex charIndex isDeleting] in *; subst del.
  - assert (Htick : Rubaisha.typeStatus q (mkTw m c false t)
             = Some (mkTw m (c + 1) true (js_substring cur 0 (c + 1)), 2000)).
    { unfold Rubaisha.typeStatus; simpl. rewrite Hcur.
      destruct (Z.eqb_spec (c + 1) (js_length cur)); [reflexivity | lia]. }
    rewrite (ticks_elapsed_S _ _ _ _ _ Htick). simpl.
    eexists. split; [reflexivity|]. unfold control; simpl.
    replace (c + 1) with (js_length cur) by lia.
    split; [reflexivity | apply js_substring_full].
  - assert (Htick : Rubaisha.typeStatus q (mkTw m c false t)
             = Some (mkTw m (c + 1) false (js_substring cur 0 (c + 1)), 100)).
    { unfold Rubaisha.typeStatus; simpl. rewrite Hcur.
      destruct (Z.eqb_spec (c + 1) (js_length cur)); [lia | reflexivity]. }
    rewrite (ticks_elapsed_S _ _ _ _ _ Htick).
    destruct (IH (mkTw m (c + 1) false (js_substring cur 0 (c + 1))))
      as [s' [E' H]];
      cbn [messageIndex charIndex isDeleting]; auto; [lia|].
    rewrite E'. exists s'. split; [|exact H]. f_equal. f_equal. lia.
Qed.

Lemma deleting_elapsed (q : list string) (cur : string) (k : nat) :
  forall s,
    js_index q (messageIndex s) = Some cur ->
    isDeleting s = true ->
    charIndex s = Z.of_nat (S k) ->
    exists s',
      ticks_elapsed (Rubaisha.typeStatus q) (S k) s
        = Some (s', 50 * Z.of_nat k + 100) /\
      control s' =
        (js_rem (messageIndex s + 1) (Z.of_nat (List.length q)), 0, false) /\
      textContent s' = "".
Proof.
  induction k as [|k IH]; intros [m c del t] Hcur Hd Hc;
    cbn [messageIndex charIndex isDeleting] in *; subst del.
  - assert (Htick : Rubaisha.typeStatus q (mkTw m c true t)
             = Some (mkTw (js_rem (m + 1) (Z.of_nat (List.length q))) (c - 1)
                       false (js_substring cur 0 (c - 1)), 100)).
    { unfold Rubaisha.typeStatus; simpl. rewrite Hcur.
      destruct (Z.eqb_spec (c - 1) 0); [reflexivity | lia]. }
    rewrite (ticks_elapsed_S _ _ _ _ _ Htick). simpl.
    eexists. split; [reflexivity|]. unfold control; simpl.
    replace (c - 1) with 0 by lia.
    split; [reflexivity | apply js_substring_0_0].
  - assert (Htick : Rubaisha.typeStatus q (mkTw m c true t)
             = Some (mkTw m (c - 1) true (js_substring cur 0 (c - 1)), 50)).
    { unfold Rubaisha.typeStatus; simpl. rewrite Hcur.
      destruct (Z.eqb_spec (c - 1) 0); [lia | reflexivity]. }
    rewrite (ticks_elapsed_S _ _ _ _ _ Htick).
    destruct (IH (mkTw m (c - 1) true (js_substring cur 0 (c - 1))))
      as [s' [E' H]];
      cbn [messageIndex charIndex isDeleting]; auto; [lia|].
    rewrite E'. exists s'. split; [|exact H]. f_equal. f_equal. lia.
Qed.

(** X2.  From the start of a message of [L >= 1] characters, in both
    pages, the [2 * L] ticks that type and delete it schedule delays that
    add up to [150 * L + 1950] ms; after them the driver is at the start
    of the next message, in typing mode, and the Rubaisha display is
    empty. *)
Theorem cycle_duration (q : list string) (s : tw_state) (cur : string) :
  js_index q (messageIndex s) = Some cur ->
  0 < js_length cur ->
  isDeleting s = false ->
  charIndex s = 0 ->
  exists sR sH,
    ticks_elapsed (Rubaisha.typeStatus q) (2 * String.length cur) s
      = Some (sR, 150 * js_length cur + 1950) /\
    ticks_elapsed (Hisham.typeStatus q) (2 * String.length cur) s
      = Some (sH, 150 * js_length cur + 1950) /\
    control sR =
      (js_rem (messageIndex s + 1) (Z.of_nat (List.length q)), 0, false) /\
    control sH = control sR /\
    textContent sR = "".
Proof.
  intros Hcur Hpos Hd Hc.
  destruct (String.length cur) as [|k] eqn:EL;
    [unfold js_length in Hpos; rewrite EL in Hpos; simpl in Hpos; lia|].
  assert (HL : js_length cur = Z.of_nat (S k))
    by (unfold js_length; now rewrite EL).
  destruct (typing_elapsed q cur k s Hcur Hd) as [s1 [E1 [C1 _]]]; [lia|].
  unfold control in C1. injection C1 as M1 I1 D1.
  destruct (deleting_elapsed q cur k s1) as [s2 [E2 [C2 T2]]];
    [congruence | exact D1 | congruence |].
  pose proof (ticks_elapsed_app _ _ _ _ _ _ _ _ E1 E2) as E.
  replace (S k + S k)%nat with (2 * S k)%nat in E by lia.
  replace (100 * Z.of_nat k + 2000 + (50 * Z.of_nat k + 100))
    with (150 * js_length cur + 1950) in E by lia.
  pose proof (elapsed_agree q (2 * S k) s s eq_refl) as HA.
  rewrite E in HA.
  destruct (ticks_elapsed (Hisham.typeStatus q) (2 * S k) s) as [[sH t]|];
    [|contradiction].
  destruct HA as [HA <-].
  exists s2, sH. repeat split; auto.
  rewrite C2, M1. reflexivity.
Qed.

Lemma cycle_duration_witness :
  exists sR sH,
    ticks_elapsed (Rubaisha.typeStatus Rubaisha.logMessages)
      (2 * String.length "// loading memory: ruby_bday.dat") (tw_init "")
      = Some (sR, 150 * js_length "// loading memory: ruby_bday.dat" + 1950) /\
    ticks_elapsed (Hisham.typeStatus Rubaisha.logMessages)
      (2 * String.length "// loading memory: ruby_bday.dat") (tw_init "")
      = Some (sH, 150 * js_length "// loading memory: ruby_bday.dat" + 1950) /\
    control sR =
      (js_rem (messageIndex (tw_init "") + 1)
         (Z.of_nat (List.length Rubaisha.logMessages)), 0, false) /\
    control sH = control sR /\
    textContent sR = "".
Proof.
  apply (cycle_duration Rubaisha.logMessages (tw_init "")
           "// loading memory: ruby_bday.dat");
    reflexivity.
Defined.

(** ** The typewriter on an empty message *)

Lemma js_substring_empty (a b : Z) : js_substring "" a b = "".
Proof.
  unfold js_substring.
  destruct (Z.to_nat _), (Z.to_nat _); reflexivity.
Qed.

(** X3.  When the selected message is the empty string and the driver is
    typing, it types for ever: every further tick succeeds, schedules
    100 ms, leaves the display empty and [messageIndex] where it is, and
    [charIndex] grows by one per tick, past the length of the message. *)
Theorem empty_message_stalls (q : list string) (s : tw_state) (n : nat) :
  js_index q (messageIndex s) = Some "" ->
  isDeleting s = false ->
  0 <= charIndex s ->
  exists tr,
    run (Rubaisha.typeStatus q) n s = Some tr /\
    List.length tr = n /\
    Forall (fun p => snd p = 100 /\ textContent (fst p) = "" /\
                     messageIndex (fst p) = messageIndex s /\
                     isDeleting (fst p) = false) tr /\
    ticks (Rubaisha.typeStatus q) n s =
      Some (mkTw (messageIndex s) (charIndex s + Z.of_nat n) false
              (match n with O => textContent s | S _ => "" end)).
Proof.
  revert s. induction n as [|n IH]; intros [m c del t] Hcur Hd Hc;
    cbn [messageIndex charIndex isDeleting textContent] in *; subst del.
  - exists []. simpl. repeat split; auto. now rewrite Z.add_0_r.
  - assert (Htick : Rubaisha.typeStatus q (mkTw m c false t)
             = Some (mkTw m (c + 1) false "", 100)).
    { unfold Rubaisha.typeStatus; simpl. rewrite Hcur.
      rewrite js_substring_empty.
      destruct (Z.eqb_spec (c + 1) (js_length "")) as [E|E];
        [unfold js_length in E; simpl in E; lia | reflexivity]. }
    destruct (IH (mkTw m (c + 1) false "")) as [tr [R [Len [F T]]]];
      cbn [messageIndex charIndex isDeleting]; auto; [lia|].
    cbn [messageIndex charIndex isDeleting textContent] in *.
    exists ((mkTw m (c + 1) false "", 100) :: tr).
    simpl. rewrite Htick, R, T. repeat split; auto.
    + f_equal. f_equal; [lia | destruct n; reflexivity].
Qed.

Lemma empty_message_stalls_witness :
  exists tr,
    run (Rubaisha.typeStatus [""; "never shown"]) 3 (tw_init "") = Some tr /\
    List.length tr = 3%nat /\
    Forall (fun p => snd p = 100 /\ textContent (fst p) = "" /\
                     messageIndex (fst p) = messageIndex (tw_init "") /\
                     isDeleting (fst p) = false) tr /\
    ticks (Rubaisha.typeStatus [""; "never shown"]) 3 (tw_init "") =
      Some (mkTw (messageIndex (tw_init ""))
              (charIndex (tw_init "") + Z.of_nat 3) false "").
Proof.
  apply (empty_message_stalls [""; "never shown"] (tw_init "") 3);
    [reflexivity | reflexivity | simpl; lia].
Defined.

(** ** The tab title *)

Lemma title_ticks_snoc (ts : list string) (n : nat) :
  forall s, title_ticks ts (S n) s = title_tick ts (title_ticks ts n s).
Proof.
  induction n as [|n IH]; intros s; [reflexivity|].
  change (title_ticks ts (S (S n)) s)
    with (title_ticks ts (S n) (title_tick ts s)).
  rewrite IH. reflexivity.
Qed.

Lemma title_ticks_index (ts : list string) (n : nat) :
  forall s, titleIndex (title_ticks ts n s) = titleIndex s + Z.of_nat n.
Proof.
  induction n as [|n IH]; intros s; simpl title_ticks; [lia|].
  rewrite IH. simpl. lia.
Qed.

Lemma title_after (ts : list string) (n : nat) (t0 : string) :
  ts <> [] ->
  js_index ts (Z.of_nat n mod Z.of_nat (List.length ts)) =
    Some (document_title (title_ticks ts (S n) (mkTitle t0 0))).
Proof.
  intros Hne.
  assert (Hlen : 0 < Z.of_nat (List.length ts))
    by (destruct ts; [congruence | simpl List.length; lia]).
  rewrite title_ticks_snoc. unfold title_tick at 1. simpl document_title.
  rewrite title_ticks_index. simpl titleIndex.
  unfold js_rem_nan.
  destruct (Z.eqb_spec (Z.of_nat (List.length ts)) 0) as [E|_]; [lia|].
  rewrite Z.rem_mod_nonneg by lia. rewrite Z.add_0_l.
  destruct (js_index_defined ts (Z.of_nat n mod Z.of_nat (List.length ts)))
    as [x [Hx _]]; [apply Z.mod_pos_bound; lia|].
  rewrite Hx. reflexivity.
Qed.

(** X4.  For any non-empty array of titles, the [n + 1]-th firing of the
    interval sets the tab title to [titles[n mod titles.length]] and
    leaves [titleIndex = n + 1] (the index itself is never wrapped); the
    title therefore repeats with period [titles.length]. *)
Theorem title_cycle (ts : list string) (t0 : string) (n : nat) :
  ts <> [] ->
  js_index ts (Z.of_nat n mod Z.of_nat (List.length ts)) =
    Some (document_title (title_ticks ts (S n) (mkTitle t0 0))) /\
  titleIndex (title_ticks ts (S n) (mkTitle t0 0)) = Z.of_nat n + 1 /\
  document_title (title_ticks ts (S (n + List.length ts)) (mkTitle t0 0)) =
    document_title (title_ticks ts (S n) (mkTitle t0 0)).
Proof.
  intros Hne. split; [now apply title_after|]. split.
  - rewrite title_ticks_index. simpl titleIndex. lia.
  - pose proof (title_after ts n t0 Hne) as H1.
    pose proof (title_after ts (n + List.length ts) t0 Hne) as H2.
    replace (Z.of_nat (n + List.length ts) mod Z.of_nat (List.length ts))
      with (Z.of_nat n mod Z.of_nat (List.length ts)) in H2.
    + congruence.
    + rewrite Nat2Z.inj_add.
      rewrite <- (Z.mul_1_l (Z.of_nat (List.length ts))) at 2.
      rewrite Z.mod_add; [reflexivity|].
      destruct ts; [congruence | simpl List.length; lia].
Qed.

Lemma title_cycle_witness :
  titles <> [] /\
  js_index titles (Z.of_nat 5 mod Z.of_nat (List.length titles)) =
    Some (document_title (title_ticks titles 6 (mkTitle "" 0))) /\
  titleIndex (title_ticks titles 6 (mkTitle "" 0)) = Z.of_nat 5 + 1 /\
  document_title (title_ticks titles (S (5 + List.length titles)) (mkTitle "" 0)) =
    document_title (title_ticks titles 6 (mkTitle "" 0)).
Proof.
  assert (H : titles <> []) by discriminate.
  split; [exact H|].
  exact (title_cycle titles "" 5 H).
Defined.

(** ** The pre-loader *)


Lemma js_index_of_nat {A : Type} (l : list A) (i : nat) :
  js_index l (Z.of_nat i) = nth_error l i.
Proof.
  unfold js_index. destruct (Z.ltb_spec (Z.of_nat i) 0); [lia|].
  now rewrite Nat2Z.id.
Qed.





(** ** The ghost text *)

Lemma list_set_middle {A : Type} (pre : list A) (x v : A) (rest : list A) :
  list_set (pre ++ x :: rest) (List.length pre) v = (pre ++ v :: rest)%list.
Proof.
  induction pre as [|a pre IH]; simpl; [reflexivity | now rewrite IH].
Qed.

Lemma reveal_from (k : nat) :
  forall (pre rest : list string),
    reveal_calls k (mkGhost (Z.of_nat (List.length pre)) (pre ++ rest)) =
      Some (mkGhost (Z.of_nat (List.length pre + Nat.min k (List.length rest)))
              (pre ++ List.repeat "1" (Nat.min k (List.length rest))
                   ++ skipn (Nat.min k (List.length rest)) rest),
            (k <=? List.length rest)%nat).
Proof.
  induction k as [|k IH]; intros pre rest.
  - simpl. now rewrite Nat.add_0_r.
  - destruct rest as [|x rest].
    + simpl. unfold revealText. simpl ghost_i. simpl ghost_opacity.
      destruct (Z.ltb_spec (Z.of_nat (List.length pre))
                  (Z.of_nat (List.length (pre ++ [])))) as [H|H].
      * rewrite app_nil_r in H. lia.
      * now rewrite Nat.add_0_r.
    + simpl reveal_calls. unfold revealText. simpl ghost_i. simpl ghost_opacity.
      destruct (Z.ltb_spec (Z.of_nat (List.length pre))
                  (Z.of_nat (List.length (pre ++ x :: rest)))) as [H|H];
        [|rewrite length_app in H; simpl in H; lia].
      rewrite js_index_of_nat, nth_error_app2 by lia.
      rewrite Nat.sub_diag. simpl nth_error. cbv iota.
      rewrite Nat2Z.id, list_set_middle.
      specialize (IH (pre ++ ["1"])%list rest).
      rewrite length_app in IH. simpl List.length in IH.
      rewrite <- app_assoc in IH. simpl app in IH.
      replace (Z.of_nat (List.length pre) + 1)
        with (Z.of_nat (List.length pre + 1)) by lia.
      rewrite IH.
      replace (List.length pre + 1 + Nat.min k (List.length rest))%nat
        with (List.length pre + Nat.min (S k) (List.length (x :: rest)))%nat
        by (simpl; lia).
      rewrite <- app_assoc. reflexivity.
Qed.

(** X6.  For any paragraphs, after [k] calls along the timer chain of
    [revealText] exactly the first [min k n] of the [n] paragraphs have
    opacity 1 and the others keep the opacity they had; a further call is
    pending as long as [k <= n], and the call number [n + 1] changes
    nothing and sets no timer, so the chain ends. *)
Theorem reveal_prefix (ops : list string) (k : nat) :
  reveal_calls k (mkGhost 0 ops) =
    Some (mkGhost (Z.of_nat (Nat.min k (List.length ops)))
            (List.repeat "1" (Nat.min k (List.length ops))
               ++ skipn (Nat.min k (List.length ops)) ops),
          (k <=? List.length ops)%nat).
Proof. exact (reveal_from k [] ops). Qed.

(** ** The falling characters *)

Lemma fall_on_screen (height : Z) (r : matrix_roll) (d : Z) :
  d * fontSize <= height -> fall height r d = d + 1.
Proof.
  intros H. unfold fall.
  destruct (Z.gtb_spec (d * fontSize) height) as [G|G]; [lia | reflexivity].
Qed.

Lemma fall_cases (height : Z) (r : matrix_roll) (d : Z) :
  fall height r d = d + 1 \/ (height < d * fontSize /\ fall height r d = 1).
Proof.
  unfold fall.
  destruct (Z.gtb_spec (d * fontSize) height) as [G|G]; simpl; [|now left].
  destruct (restart r); [right; split; [lia | reflexivity] | now left].
Qed.

Lemma rubaisha_loop_moves (chars : list string) (height : Z)
    (roll : nat -> matrix_roll) (drops : list Z) :
  forall i,
    Forall2 (drop_moves height) drops
      (fst (RubaishaRain.rain_loop chars height roll i drops)) /\
    List.length (snd (RubaishaRain.rain_loop chars height roll i drops))
      = List.length drops.
Proof.
  induction drops as [|d rest IH]; intros i; simpl; [split; constructor|].
  specialize (IH (S i)).
  destruct (RubaishaRain.rain_loop chars height roll (S i) rest) as [rest' ops].
  simpl in *. destruct IH as [IH1 IH2]. split.
  - constructor; [apply fall_cases | exact IH1].
  - now rewrite IH2.
Qed.

Lemma hisham_loop_moves (chars colours : list string) (height : Z)
    (roll : nat -> matrix_roll) (drops : list Z) :
  forall i style,
    Forall2 (drop_moves height) drops
      (fst (HishamRain.rain_loop chars colours height roll i style drops)) /\
    List.length
      (snd (HishamRain.rain_loop chars colours height roll i style drops))
      = List.length drops.
Proof.
  induction drops as [|d rest IH]; intros i style; simpl; [split; constructor|].
  match goal with
  | |- context [HishamRain.rain_loop _ _ _ _ (S i) ?st rest] =>
    specialize (IH (S i) st);
    destruct (HishamRain.rain_loop chars colours height roll (S i) st rest)
      as [rest' ops]
  end.
  simpl in *. destruct IH as [IH1 IH2]. split.
  - constructor; [apply fall_cases | exact IH1].
  - now rewrite IH2.
Qed.

Lemma frame_rows (chars colours : list string) (width height : Z)
    (roll : nat -> matrix_roll) (drops : list Z) :
  Forall2 (drop_moves height) drops
    (fst (RubaishaRain.drawMatrix chars width height roll drops)) /\
  Forall2 (drop_moves height) drops
    (fst (HishamRain.drawMatrix chars colours width height roll drops)).
Proof.
  unfold RubaishaRain.drawMatrix, HishamRain.drawMatrix.
  pose proof (rubaisha_loop_moves chars height roll drops O) as [R1 _].
  pose proof (hisham_loop_moves chars colours height roll drops O
                "rgba(0, 0, 0, 0.05)") as [H1 _].
  destruct (RubaishaRain.rain_loop chars height roll 0 drops) as [dr opsr].
  destruct (HishamRain.rain_loop chars colours height roll 0
              "rgba(0, 0, 0, 0.05)" drops) as [dh opsh].
  simpl in *. split; assumption.
Qed.

(** X7.  One frame of either page, whatever [Math.random()] yields: the
    number of columns is unchanged, every drop moves down exactly one row
    unless it is already below the canvas, and only such a drop can start
    again, at row 1; the frame issues one [fillRect] and one [fillText]
    per column. *)
Theorem frame_moves (chars colours : list string) (width height : Z)
    (roll : nat -> matrix_roll) (drops : list Z) :
  Forall2 (drop_moves height) drops
    (fst (RubaishaRain.drawMatrix chars width height roll drops)) /\
  Forall2 (drop_moves height) drops
    (fst (HishamRain.drawMatrix chars colours width height roll drops)) /\
  List.length (snd (RubaishaRain.drawMatrix chars width height roll drops))
    = S (List.length drops) /\
  List.length (snd (HishamRain.drawMatrix chars colours width height roll drops))
    = S (List.length drops).
Proof.
  unfold RubaishaRain.drawMatrix, HishamRain.drawMatrix.
  pose proof (rubaisha_loop_moves chars height roll drops O) as [R1 R2].
  pose proof (hisham_loop_moves chars colours height roll drops O
                "rgba(0, 0, 0, 0.05)") as [H1 H2].
  destruct (RubaishaRain.rain_loop chars height roll 0 drops) as [dr opsr].
  destruct (HishamRain.rain_loop chars colours height roll 0
              "rgba(0, 0, 0, 0.05)" drops) as [dh opsh].
  simpl in *. repeat split; auto.
Qed.

Lemma moves_on_screen (height v : Z) (c : nat) (drops' : list Z) :
  v * fontSize <= height ->
  Forall2 (drop_moves height) (List.repeat v c) drops' ->
  drops' = List.repeat (v + 1) c.
Proof.
  intros Hv. revert drops'. induction c as [|c IH]; intros drops' H;
    simpl in *; inversion H; subst; [reflexivity|].
  f_equal; [|now apply IH].
  match goal with
  | M : drop_moves _ _ _ |- _ => destruct M as [M1|[M2 _]]; [exact M1 | lia]
  end.
Qed.

Lemma frames_lockstep
    (draw : (nat -> matrix_roll) -> list Z -> list Z * list canvas_op)
    (height : Z) (c : nat) :
  (forall roll drops, Forall2 (drop_moves height) drops (fst (draw roll drops))) ->
  forall (n : nat) (rolls : nat -> nat -> matrix_roll) (v : Z),
    (v + Z.of_nat n - 1) * fontSize <= height ->
    frames draw rolls n (List.repeat v c) = List.repeat (v + Z.of_nat n) c.
Proof.
  intros Hdraw. induction n as [|n IH]; intros rolls v Hv.
  - simpl. now rewrite Z.add_0_r.
  - simpl frames.
    rewrite (moves_on_screen height v c _) with (2 := Hdraw (rolls O) _)
      by (unfold fontSize in *; lia).
    rewrite IH by lia. f_equal. lia.
Qed.

(** X8.  Started with every drop at row 1, as both pages start, the
    columns fall in lockstep while they are on the canvas: after [n]
    frames with [n * fontSize <= canvas.height] every drop is at row
    [n + 1], whatever [Math.random()] yielded in those frames. *)
Theorem rain_lockstep (chars colours : list string) (width height : Z)
    (rolls : nat -> nat -> matrix_roll) (c n : nat) :
  Z.of_nat n * fontSize <= height ->
  frames (RubaishaRain.drawMatrix chars width height) rolls n (List.repeat 1 c)
    = List.repeat (1 + Z.of_nat n) c /\
  frames (HishamRain.drawMatrix chars colours width height) rolls n
    (List.repeat 1 c) = List.repeat (1 + Z.of_nat n) c.
Proof.
  intros Hn. split; apply frames_lockstep with (height := height);
    try (replace (1 + Z.of_nat n - 1) with (Z.of_nat n) by lia; exact Hn);
    intros roll drops;
    apply (frame_rows chars colours width height roll drops).
Qed.

Lemma rain_lockstep_witness :
  Z.of_nat 5 * fontSize <= 600 /\
  frames (RubaishaRain.drawMatrix RubaishaRain.characters 800 600)
    (fun _ _ => mkRoll 3 0 true) 5 (List.repeat 1 4)
    = List.repeat (1 + Z.of_nat 5) 4 /\
  frames (HishamRain.drawMatrix HishamRain.characters HishamRain.neonColors
            800 600)
    (fun _ _ => mkRoll 3 0 true) 5 (List.repeat 1 4)
    = List.repeat (1 + Z.of_nat 5) 4.
Proof.
  assert (H : Z.of_nat 5 * fontSize <= 600) by (vm_compute; discriminate).
  split; [exact H|].
  exact (rain_lockstep RubaishaRain.characters HishamRain.neonColors 800 600
           (fun _ _ => mkRoll 3 0 true) 4 5 H).
Defined.

(** *** Number of columns *)

Lemma js_lt_columns (x width : Z) :
  js_lt (inject_Z x) (columns width) = (x * fontSize <? width).
Proof.
  unfold js_lt, columns, Qle_bool, fontSize. simpl.
  rewrite !Z.mul_1_r.
  destruct (Z.leb_spec width (x * 16)), (Z.ltb_spec (x * 16) width);
    simpl; try reflexivity; lia.
Qed.

Lemma Qfloor_columns (width : Z) : Qfloor (columns width) = width / fontSize.
Proof.
  unfold columns, fontSize. simpl. now rewrite Z.mul_1_r.
Qed.

Lemma rubaisha_init_from (width : Z) (fuel : nat) :
  forall (x : Z) (acc : list Z),
    0 <= x <= (width + 15) / 16 ->
    ((width + 15) / 16 - x < Z.of_nat fuel) ->
    RubaishaRain.init_drops fuel (columns width) x acc =
      (acc ++ List.repeat 1 (Z.to_nat ((width + 15) / 16 - x)))%list.
Proof.
  induction fuel as [|fuel IH]; intros x acc Hx Hf; [lia|].
  simpl RubaishaRain.init_drops. rewrite js_lt_columns. unfold fontSize.
  pose proof (Z.div_mod (width + 15) 16 ltac:(lia)) as Hdm.
  pose proof (Z.mod_pos_bound (width + 15) 16 ltac:(lia)) as Hmb.
  destruct (Z.ltb_spec (x * 16) width) as [L|L].
  - rewrite IH by lia.
    replace (Z.to_nat ((width + 15) / 16 - x))
      with (S (Z.to_nat ((width + 15) / 16 - (x + 1)))) by lia.
    simpl. now rewrite <- app_assoc.
  - replace (Z.to_nat ((width + 15) / 16 - x)) with O by lia.
    simpl. now rewrite app_nil_r.
Qed.

(** X9.  For a canvas [width >= 0] pixels wide the Rubaisha loop makes
    one drop per started column of 16 pixels, so its columns cover the
    whole width, while [Array.from({ length: columns })] of the Hisham page
    makes one per complete column only: the Hisham page has one column
    fewer exactly when the width is no multiple of 16, and its last
    [width mod 16] pixels get no characters. *)
Theorem column_counts (width : Z) (fuel : nat) :
  0 <= width ->
  width < Z.of_nat fuel ->
  RubaishaRain.init_drops fuel (columns width) 0 [] =
    List.repeat 1 (Z.to_nat ((width + 15) / 16)) /\
  HishamRain.init_drops (columns width) =
    List.repeat 1 (Z.to_nat (width / 16)) /\
  16 * (width / 16) <= width <= 16 * ((width + 15) / 16) /\
  (width + 15) / 16 = (if width mod 16 =? 0 then width / 16 else width / 16 + 1).
Proof.
  intros Hw Hf.
  pose proof (Z.div_mod (width + 15) 16 ltac:(lia)) as Hdm.
  pose proof (Z.mod_pos_bound (width + 15) 16 ltac:(lia)) as Hmb.
  pose proof (Z.div_mod width 16 ltac:(lia)) as Hdm'.
  pose proof (Z.mod_pos_bound width 16 ltac:(lia)) as Hmb'.
  split; [|split; [|split]].
  - rewrite rubaisha_init_from by lia.
    simpl. now rewrite Z.sub_0_r.
  - unfold HishamRain.init_drops. now rewrite Qfloor_columns.
  - lia.
  - destruct (Z.eqb_spec (width mod 16) 0) as [E|E]; lia.
Qed.

Lemma column_counts_witness :
  0 <= 1000 /\ 1000 < Z.of_nat 1001 /\
  RubaishaRain.init_drops 1001 (columns 1000) 0 [] =
    List.repeat 1 (Z.to_nat ((1000 + 15) / 16)) /\
  HishamRain.init_drops (columns 1000) =
    List.repeat 1 (Z.to_nat (1000 / 16)) /\
  16 * (1000 / 16) <= 1000 <= 16 * ((1000 + 15) / 16) /\
  (1000 + 15) / 16 = (if 1000 mod 16 =? 0 then 1000 / 16 else 1000 / 16 + 1).
Proof.
  assert (H1 : 0 <= 1000) by lia.
  assert (H2 : 1000 < Z.of_nat 1001) by lia.
  split; [exact H1|]. split; [exact H2|].
  exact (column_counts 1000 1001 H1 H2).
Defined.

(** ** The scene player: sounds, the end of the chain, endless chains *)

Section ScenePlayerMore.

Variable env : browser.
Variable chain : list scene.

Lemma chain_path_nonempty (fuel : nat) (i : Z) (p : list scene) :
  chain_path chain fuel i = Some p -> (1 <= List.length p)%nat.
Proof.
  destruct fuel as [|f]; simpl; [discriminate|].
  destruct (js_index chain i) as [sc|]; [|discriminate].
  destruct (next sc) as [j|].
  - destruct (chain_path chain f j); simpl; [|discriminate].
    intros E; injection E as <-. simpl. lia.
  - intros E; injection E as <-. simpl. lia.
Qed.

Lemma chain_path_walk (fuel : nat) :
  forall i, walk chain fuel i = option_map (@List.length scene) (chain_path chain fuel i).
Proof.
  induction fuel as [|f IH]; intros i; simpl; [reflexivity|].
  destruct (js_index chain i) as [sc|]; [|reflexivity].
  destruct (next sc) as [j|]; [|reflexivity].
  rewrite IH. destruct (chain_path chain f j); reflexivity.
Qed.

Lemma sound_of_scene (i : Z) (sc : scene) :
  sounds_defined env chain -> js_index chain i = Some sc ->
  hasElement env (audio sc) = true.
Proof.
  intros Hs Hsc. unfold sounds_defined in Hs. rewrite Forall_forall in Hs.
  apply Hs. eapply js_index_In; eassumption.
Qed.

(** Showing scene [i] and activating the control [k] times along the
    path [p] that starts at [i]. *)
Lemma path_play (fuel : nat) :
  forall (i : Z) (p : list scene),
    chain_path chain fuel i = Some p ->
    sounds_defined env chain ->
    forall (s : player) (k : nat),
      currentScene s = i -> (k < List.length p)%nat ->
      exists s1 s' sc,
        showScene env chain i s = Some s1 /\
        continue_clicks env chain k s1 = Some s' /\
        js_index chain (currentScene s') = Some sc /\
        nth_error p k = Some sc /\
        played (io s') = (played (io s) ++ map audio (firstn (S k) p))%list /\
        (S k = List.length p ->
         next sc = None /\ (onclick_ok s -> onclick_ok s') /\
         nextBtn_display s' = "none" /\
         sceneImage_src s' = image sc /\
         dialogueBox_textContent s' = (dialogue sc ++ epilogue)%string).
Proof.
  induction fuel as [|f IH]; intros i p Hp Hs s k Hi Hk; simpl in Hp;
    [discriminate|].
  destruct (js_index chain i) as [sc0|] eqn:Hsc; [|discriminate].
  pose proof (sound_of_scene i sc0 Hs Hsc) as Ha.
  destruct (showScene_defined env chain i s sc0 Hsc Ha)
    as [s1 [E1 [Hc [Himg [_ [_ [Hpl [_ Hn]]]]]]]].
  destruct (next sc0) as [j|] eqn:Hnext.
  - destruct (chain_path chain f j) as [p'|] eqn:Hp'; simpl in Hp;
      [|discriminate].
    injection Hp as <-. destruct Hn as [_ [_ Hclick]].
    pose proof (chain_path_nonempty f j p' Hp') as Hpos.
    destruct k as [|k].
    + exists s1, s1, sc0. split; [exact E1|]. split; [reflexivity|].
      split; [now rewrite Hc, Hi|]. split; [reflexivity|].
      split; [exact Hpl|]. simpl. intros F. lia.
    + destruct (IH j p' Hp' Hs (set_currentScene s1 j) k eq_refl)
        as [s2 [s' [sc [E2 [E3 [Hsc' [Hnth [Hpl' Hend]]]]]]]].
      * simpl in Hk. lia.
      * exists s1, s', sc. split; [exact E1|]. split.
        { simpl. unfold nextBtn_click. rewrite Hclick, Hnext. simpl.
          simpl in E2. rewrite E2. exact E3. }
        split; [exact Hsc'|]. split; [exact Hnth|]. split.
        { rewrite Hpl'. simpl io. rewrite Hpl.
          rewrite <- app_assoc. reflexivity. }
        { intros F. destruct Hend as [T [Hok' R]]; [simpl in F; lia|].
          split; [exact T|]. split; [|exact R].
          intros _. apply Hok'. unfold onclick_ok. simpl.
          now rewrite Hclick. }
  - injection Hp as <-. destruct Hn as [Hd [Hdisp Hclick]].
    assert (k = O) by (simpl in Hk; lia). subst k.
    exists s1, s1, sc0. split; [exact E1|]. split; [reflexivity|].
    split; [now rewrite Hc, Hi|]. split; [reflexivity|].
    split; [exact Hpl|]. intros _.
    split; [exact Hnext|]. split.
    + unfold onclick_ok. now rewrite Hclick, Hc.
    + auto.
Qed.

Lemma continue_clicks_app (a b : nat) :
  forall s s1,
    continue_clicks env chain a s = Some s1 ->
    continue_clicks env chain (a + b) s = continue_clicks env chain b s1.
Proof.
  induction a as [|a IH]; intros s s1 E; simpl in *.
  - now injection E as <-.
  - destruct (nextBtn_click env chain s) as [s'|]; [|discriminate].
    now apply IH.
Qed.

(** Activations at the last scene leave the player there. *)
Lemma stay_at_end (sc : scene) (m : nat) :
  next sc = None ->
  hasElement env (audio sc) = true ->
  forall s,
    js_index chain (currentScene s) = Some sc ->
    onclick_ok s ->
    nextBtn_display s = "none" ->
    sceneImage_src s = image sc ->
    dialogueBox_textContent s = (dialogue sc ++ epilogue)%string ->
    exists s',
      continue_clicks env chain m s = Some s' /\
      currentScene s' = currentScene s /\
      nextBtn_display s' = "none" /\
      sceneImage_src s' = image sc /\
      dialogueBox_textContent s' = (dialogue sc ++ epilogue)%string.
Proof.
  intros Hn Ha. induction m as [|m IH]; intros s Hsc Hok Hd Hi Ht.
  - exists s. simpl. auto.
  - simpl. unfold nextBtn_click. unfold onclick_ok in Hok.
    destruct (nextBtn_onclick s) as [prev|] eqn:Hclick.
    + rewrite Hok. simpl currentScene.
      destruct (showScene_defined env chain (currentScene s)
                  (set_currentScene s (currentScene s)) sc Hsc Ha)
        as [s1 [E1 [Hc [Himg [_ [_ [_ [_ N]]]]]]]].
      rewrite Hn in N. destruct N as [D [B C]]. simpl in Hc, C.
      rewrite E1.
      destruct (IH s1) as [s' [E' [H1 H2]]]; auto.
      * now rewrite Hc.
      * unfold onclick_ok. rewrite C, Hclick, Hc. exact Hok.
      * exists s'. split; [exact E'|]. split; [congruence | exact H2].
    + apply IH; auto. unfold onclick_ok. now rewrite Hclick.
Qed.

Lemma endless_step (i : Z) (sc : scene) :
  endless chain -> js_index chain i = Some sc ->
  exists j sc', next sc = Some j /\ js_index chain j = Some sc'.
Proof.
  intros He Hsc. unfold endless in He. rewrite Forall_forall in He.
  apply He. eapply js_index_In; eassumption.
Qed.

Lemma endless_play (k : nat) :
  endless chain -> sounds_defined env chain ->
  forall (i : Z) (sc : scene) (s : player),
    js_index chain i = Some sc ->
    exists s1 s',
      showScene env chain i s = Some s1 /\
      continue_clicks env chain k s1 = Some s' /\
      nextBtn_display s' = "block".
Proof.
  intros He Hs. induction k as [|k IH]; intros i sc s Hsc;
    pose proof (sound_of_scene i sc Hs Hsc) as Ha;
    destruct (showScene_defined env chain i s sc Hsc Ha)
      as [s1 [E1 [_ [_ [_ [_ [_ [_ N]]]]]]]];
    destruct (endless_step i sc He Hsc) as [j [sc' [Hn Hj]]];
    rewrite Hn in N; destruct N as [_ [B C]].
  - exists s1, s1. auto.
  - destruct (IH j sc' (set_currentScene s1 j) Hj) as [s2 [s' [E2 [E3 D]]]].
    exists s1, s'. split; [exact E1|]. split; [|exact D].
    simpl. unfold nextBtn_click. rewrite C, Hn. simpl.
    rewrite E2. exact E3.
Qed.

Lemma endless_walk (fuel : nat) :
  endless chain -> forall i, walk chain fuel i = None.
Proof.
  intros He. induction fuel as [|f IH]; intros i; simpl; [reflexivity|].
  destruct (js_index chain i) as [sc|] eqn:Hsc; [|reflexivity].
  destruct (endless_step i sc He Hsc) as [j [sc' [Hn _]]].
  rewrite Hn, IH. reflexivity.
Qed.

End ScenePlayerMore.

(** X10.  On a well-formed chain, the start signal and [k] activations of
    the continue control, [k] below the length of the chain, have played
    the sounds of the first [k + 1] scenes of the chain, each once and in
    the order of the chain, after whatever was played before. *)
Theorem sounds_in_chain_order
    (env : browser) (chain p : list scene) (s0 : player) (k : nat) :
  chain_path chain (List.length chain) 0 = Some p ->
  sounds_defined env chain ->
  currentScene s0 = 0 ->
  (k < List.length p)%nat ->
  chainLength chain = Some (List.length p) /\
  exists s,
    start_then_continue env chain k s0 = Some s /\
    played (io s) = (played (io s0) ++ map audio (firstn (S k) p))%list.
Proof.
  intros Hp Hs H0 Hk. split.
  - unfold chainLength. rewrite chain_path_walk, Hp. reflexivity.
  - destruct (path_play env chain _ 0 p Hp Hs
                (set_game (set_opening s0 "none") "block") k H0 Hk)
      as [s1 [s [sc [E1 [E2 [_ [_ [Hpl _]]]]]]]].
    exists s. unfold start_then_continue, start_click.
    simpl currentScene. rewrite H0, E1. split; [exact E2 | exact Hpl].
Qed.

Lemma sounds_in_chain_order_witness :
  chain_path scenes (List.length scenes) 0 = Some scenes /\
  chainLength scenes = Some (List.length scenes) /\
  exists s,
    start_then_continue env_blocked scenes 2 player_init = Some s /\
    played (io s) =
      (played (io player_init) ++ map audio (firstn 3 scenes))%list.
Proof.
  assert (H1 : chain_path scenes (List.length scenes) 0 = Some scenes)
    by reflexivity.
  assert (H2 : sounds_defined env_blocked scenes) by (repeat constructor).
  assert (H4 : (2 < List.length scenes)%nat) by (simpl; lia).
  split; [exact H1|].
  exact (sounds_in_chain_order env_blocked scenes scenes player_init 2
           H1 H2 eq_refl H4).
Defined.

(** X11.  On a well-formed chain of [L] scenes, with no closure stored
    before the start, any number [k >= L - 1] of activations of the
    continue control leaves the player at the last scene: further
    activations (the closure of the scene before stays stored) move
    nothing, throw nothing, keep the control hidden and the epilogue
    appended once. *)
Theorem stays_at_last_scene
    (env : browser) (chain : list scene) (L : nat) (s0 : player) (k : nat) :
  chainLength chain = Some L ->
  sounds_defined env chain ->
  currentScene s0 = 0 ->
  nextBtn_onclick s0 = None ->
  (L - 1 <= k)%nat ->
  exists s sc,
    start_then_continue env chain k s0 = Some s /\
    js_index chain (currentScene s) = Some sc /\
    next sc = None /\
    nextBtn_display s = "none" /\
    sceneImage_src s = image sc /\
    dialogueBox_textContent s = (dialogue sc ++ epilogue)%string.
Proof.
  intros HL Hs H0 Hclick Hk. unfold chainLength in HL.
  rewrite chain_path_walk in HL.
  destruct (chain_path chain (List.length chain) 0) as [p|] eqn:Hp;
    [|discriminate].
  injection HL as <-.
  pose proof (chain_path_nonempty chain _ _ _ Hp) as Hpos.
  destruct (path_play env chain _ 0 p Hp Hs
              (set_game (set_opening s0 "none") "block")
              (List.length p - 1) H0)
    as [s1 [s [sc [E1 [E2 [Hsc [_ [_ Hend]]]]]]]]; [lia|].
  destruct Hend as [T [Hok [D [Im Tx]]]]; [lia|].
  assert (Hok' : onclick_ok s).
  { apply Hok. unfold onclick_ok. simpl. now rewrite Hclick. }
  destruct (stay_at_end env chain sc (k - (List.length p - 1)) T
              (sound_of_scene env chain _ sc Hs Hsc) s Hsc Hok' D Im Tx)
    as [s' [E' [C' [D' [Im' Tx']]]]].
  exists s', sc. unfold start_then_continue, start_click.
  simpl currentScene. rewrite H0, E1.
  replace k with ((List.length p - 1) + (k - (List.length p - 1)))%nat
    at 1 by lia.
  rewrite (continue_clicks_app env chain _ _ _ _ E2).
  split; [exact E'|]. rewrite C'. auto.
Qed.

Lemma stays_at_last_scene_witness :
  exists s sc,
    start_then_continue env_ok scenes 7 player_init = Some s /\
    js_index scenes (currentScene s) = Some sc /\
    next sc = None /\
    nextBtn_display s = "none" /\
    sceneImage_src s = image sc /\
    dialogueBox_textContent s = (dialogue sc ++ epilogue)%string.
Proof.
  apply (stays_at_last_scene env_ok scenes 3 player_init 7);
    [reflexivity | repeat constructor | reflexivity | reflexivity
    | simpl; lia].
Defined.

(** X12.  On a chain in which every scene has a successor that is a
    scene of the array (so the chain runs in a cycle and is malformed),
    [chainLength] is undefined, and the player never ends: every number of
    activations of the continue control succeeds and leaves the control
    shown. *)
Theorem endless_chain_never_ends
    (env : browser) (chain : list scene) (s0 : player) (sc0 : scene) (k : nat) :
  endless chain ->
  sounds_defined env chain ->
  js_index chain 0 = Some sc0 ->
  currentScene s0 = 0 ->
  chainLength chain = None /\
  exists s,
    start_then_continue env chain k s0 = Some s /\
    nextBtn_display s = "block".
Proof.
  intros He Hs Hsc H0. split; [now apply endless_walk|].
  destruct (endless_play env chain k He Hs 0 sc0
              (set_game (set_opening s0 "none") "block") Hsc)
    as [s1 [s [E1 [E2 D]]]].
  exists s. unfold start_then_continue, start_click.
  simpl currentScene. rewrite H0, E1. auto.
Qed.

Lemma endless_chain_never_ends_witness :
  endless looping_scenes /\
  chainLength looping_scenes = None /\
  exists s,
    start_then_continue env_ok looping_scenes 5 player_init = Some s /\
    nextBtn_display s = "block".
Proof.
  assert (He : endless looping_scenes).
  { repeat constructor; do 2 eexists; split; reflexivity. }
  split; [exact He|].
  apply (endless_chain_never_ends env_ok looping_scenes player_init
           (mkScene "a.jpg" "A" "whisper" (Some 1)) 5 He);
    [repeat constructor | reflexivity | reflexivity].
Defined.

(** ** The music player *)

(** X13.  When the first click on the page is a click on the play button,
    the two listeners together call [play()] exactly once and leave the
    label "Pause Song", whether the song was paused or not: a song that
    was already playing is paused by the button's listener and started
    again by the [once] listener, so this click cannot pause it. *)
Theorem first_click_plays_once (env : browser) (m : music) :
  played (mio (first_click_on_playBtn env m)) =
    (played (mio m) ++ ["background-song"])%list /\
  playBtn_textContent (first_click_on_playBtn env m) = "Pause Song" /\
  status (first_click_on_playBtn env m) = status m /\
  (playOutcome env (List.length (played (mio m))) = PlayStarted ->
   song_paused (first_click_on_playBtn env m) = false).
Proof.
  unfold first_click_on_playBtn, playBtn_click, autoplay_click.
  destruct (song_paused m) eqn:Hp; simpl.
  - destruct (playOutcome env (List.length (played (mio m)))) eqn:Ho; simpl;
      repeat split; auto; discriminate.
  - destruct (playOutcome env (List.length (played (mio m)))) eqn:Ho; simpl;
      repeat split; auto; discriminate.
Qed.

Lemma playBtn_clicks_snoc (env : browser) (n : nat) :
  forall m, playBtn_clicks env (S n) m = playBtn_click env (playBtn_clicks env n m).
Proof.
  induction n as [|n IH]; intros m; [reflexivity|].
  change (playBtn_clicks env (S (S n)) m)
    with (playBtn_clicks env (S n) (playBtn_click env m)).
  now rewrite IH.
Qed.

Lemma playBtn_click_started (env : browser) (m : music) :
  (forall i, playOutcome env i = PlayStarted) ->
  playBtn_click env m =
    if song_paused m
    then mkMusic false "Pause Song" (status m)
           (mkLog (played (mio m) ++ ["background-song"]) (console (mio m)))
    else mkMusic true "Play Song" (status m) (mio m).
Proof.
  intros Hok. unfold playBtn_click.
  destruct (song_paused m); [|reflexivity].
  simpl. rewrite Hok. reflexivity.
Qed.

(** X14.  While every playback starts, clicks on the play button toggle:
    after [n >= 1] clicks from a paused song the song is paused exactly
    when [n] is even, the label names the action of the next click
    ("Play Song" when paused, "Pause Song" when playing), [play()] has
    been called once per odd click, and nothing is written to the
    console. *)
Theorem playBtn_toggles (env : browser) (m : music) (n : nat) :
  (forall i, playOutcome env i = PlayStarted) ->
  song_paused m = true ->
  song_paused (playBtn_clicks env (S n) m) = Nat.odd n /\
  playBtn_textContent (playBtn_clicks env (S n) m) =
    (if Nat.odd n then "Play Song" else "Pause Song") /\
  played (mio (playBtn_clicks env (S n) m)) =
    (played (mio m) ++ List.repeat "background-song" (S (Nat.div2 n)))%list /\
  console (mio (playBtn_clicks env (S n) m)) = console (mio m) /\
  status (playBtn_clicks env (S n) m) = status m.
Proof.
  intros Hok Hp.
  assert (Hdiv : forall k, Nat.odd k = true -> Nat.div2 (S k) = S (Nat.div2 k)).
  { intros k Ho. pose proof (Nat.div2_odd k) as D1.
    pose proof (Nat.div2_odd (S k)) as D2.
    rewrite Nat.odd_succ, <- Nat.negb_odd, Ho in D2. rewrite Ho in D1.
    simpl Nat.b2n in *. lia. }
  assert (Hdiv' : forall k, Nat.odd k = false -> Nat.div2 (S k) = Nat.div2 k).
  { intros k Ho. pose proof (Nat.div2_odd k) as D1.
    pose proof (Nat.div2_odd (S k)) as D2.
    rewrite Nat.odd_succ, <- Nat.negb_odd, Ho in D2. rewrite Ho in D1.
    simpl Nat.b2n in *. lia. }
  induction n as [|n IH].
  - simpl playBtn_clicks. rewrite (playBtn_click_started env m Hok), Hp.
    simpl. repeat split; reflexivity.
  - destruct IH as [P [T [Pl [C St]]]].
    rewrite playBtn_clicks_snoc.
    rewrite (playBtn_click_started env _ Hok), P.
    rewrite Nat.odd_succ, <- Nat.negb_odd.
    destruct (Nat.odd n) eqn:Ho; simpl negb; cbv iota;
      cbn [song_paused playBtn_textContent status mio played console].
    + rewrite Pl, C, St, (Hdiv n Ho). repeat split; try reflexivity.
      rewrite <- app_assoc. f_equal.
      change (List.repeat "background-song" (S (S (Nat.div2 n))))
        with ("background-song" :: List.repeat "background-song" (S (Nat.div2 n))).
      rewrite repeat_cons. reflexivity.
    + rewrite Pl, C, St, (Hdiv' n Ho). repeat split; reflexivity.
Qed.

Lemma playBtn_toggles_witness :
  (forall i, playOutcome env_ok i = PlayStarted) /\
  song_paused music_init = true /\
  song_paused (playBtn_clicks env_ok 4 music_init) = Nat.odd 3 /\
  playBtn_textContent (playBtn_clicks env_ok 4 music_init) =
    (if Nat.odd 3 then "Play Song" else "Pause Song") /\
  played (mio (playBtn_clicks env_ok 4 music_init)) =
    (played (mio music_init)
       ++ List.repeat "background-song" (S (Nat.div2 3)))%list /\
  console (mio (playBtn_clicks env_ok 4 music_init)) = console (mio music_init) /\
  status (playBtn_clicks env_ok 4 music_init) = status music_init.
Proof.
  assert (H1 : forall i, playOutcome env_ok i = PlayStarted)
    by (intros i; reflexivity).
  split; [exact H1|]. split; [reflexivity|].
  exact (playBtn_toggles env_ok music_init 3 H1 eq_refl).
Defined.



(** ** The scene player on a dangling successor *)

(** X16.  When the [next] of a scene is no index of the array, showing
    that scene succeeds and shows the continue control, and the activation
    of the control then throws: nothing guards the dangling index. *)
Theorem dangling_next_throws
    (env : browser) (chain : list scene) (i j : Z) (sc : scene) (s : player) :
  js_index chain i = Some sc ->
  hasElement env (audio sc) = true ->
  next sc = Some j ->
  js_index chain j = None ->
  exists s1,
    showScene env chain i s = Some s1 /\
    nextBtn_display s1 = "block" /\
    nextBtn_click env chain s1 = None.
Proof.
  intros Hsc Ha Hn Hj.
  destruct (showScene_defined env chain i s sc Hsc Ha)
    as [s1 [E1 [_ [_ [_ [_ [_ [_ N]]]]]]]].
  rewrite Hn in N. destruct N as [_ [B C]].
  exists s1. split; [exact E1|]. split; [exact B|].
  unfold nextBtn_click. rewrite C, Hn. simpl.
  unfold showScene. simpl. now rewrite Hj.
Qed.

Lemma dangling_next_throws_witness :
  exists s1,
    showScene env_ok [mkScene "a.jpg" "A" "whisper" (Some 5)] 0 player_init
      = Some s1 /\
    nextBtn_display s1 = "block" /\
    nextBtn_click env_ok [mkScene "a.jpg" "A" "whisper" (Some 5)] s1 = None.
Proof.
  apply (dangling_next_throws env_ok [mkScene "a.jpg" "A" "whisper" (Some 5)]
           0 5 (mkScene "a.jpg" "A" "whisper" (Some 5)) player_init);
    reflexivity.
Defined.
